(** * Account data decoder of the Account Data Viewer

    A shallow embedding of the schema-driven decoder of
    [AccountDataTool.tsx]: the discriminator of an account type, the
    cursor-based readers, the recursive type decoder and the account
    resolver, followed by the properties of the decoder that its
    specification states. *)

From Stdlib Require Import String Ascii List NArith ZArith Lia Bool.
From Stdlib.Strings Require Import Byte.
From Stdlib Require Import DecimalString DecimalPos DecimalZ.
Import ListNotations.

Local Open Scope N_scope.

(** ** Bytes *)

(** A [Uint8Array] is a [list byte]; the number a byte stands for is
    [Byte.to_N]. Storing a number into a [Uint8Array] keeps it modulo 256. *)
Definition byte_of_N (n : N) : byte :=
  match Byte.of_N (n mod 256) with
  | Some b => b
  | None => x00
  end.

(** ** SHA-256, the digest behind [crypto.subtle.digest("SHA-256", _)]

    The platform primitive, after FIPS 180-4. Words are numbers below
    [2^32]; the round constants and the initial state are derived from the
    primes as the standard defines them. *)
Module SHA256.

Definition w32 (x : N) : N := N.land x 0xFFFFFFFF.
Definition add32 (x y : N) : N := w32 (x + y).
Definition rotr (n x : N) : N :=
  N.lor (N.shiftr x n) (w32 (N.shiftl x (32 - n))).
Definition not32 (x : N) : N := N.lxor x 0xFFFFFFFF.

Definition ch (x y z : N) : N := N.lxor (N.land x y) (N.land (not32 x) z).
Definition maj (x y z : N) : N :=
  N.lxor (N.lxor (N.land x y) (N.land x z)) (N.land y z).
Definition bsig0 (x : N) : N := N.lxor (N.lxor (rotr 2 x) (rotr 13 x)) (rotr 22 x).
Definition bsig1 (x : N) : N := N.lxor (N.lxor (rotr 6 x) (rotr 11 x)) (rotr 25 x).
Definition ssig0 (x : N) : N := N.lxor (N.lxor (rotr 7 x) (rotr 18 x)) (N.shiftr x 3).
Definition ssig1 (x : N) : N := N.lxor (N.lxor (rotr 17 x) (rotr 19 x)) (N.shiftr x 10).

(** The first sixty-four primes, by trial division. *)
Definition is_prime (n : N) : bool :=
  (1 <? n) && forallb (fun d => negb (n mod d =? 0))
                      (map N.of_nat (seq 2 (N.to_nat n - 2))).
Definition primes64 : list N :=
  Eval vm_compute in filter is_prime (map N.of_nat (seq 2 310)).

(** Integer cube root, one bit at a time from bit [k - 1] down. *)
Fixpoint icbrt_bits (k : nat) (x acc : N) : N :=
  match k with
  | O => acc
  | S k' =>
      let c := acc + N.shiftl 1 (N.of_nat k') in
      icbrt_bits k' x (if c * c * c <=? x then c else acc)
  end.
Definition icbrt (x : N) : N := icbrt_bits 40 x 0.

(** Fractional bits of the cube (resp. square) root of a prime. *)
Definition K : list N :=
  Eval vm_compute in map (fun p => w32 (icbrt (p * 2 ^ 96))) primes64.
Definition H0 : list N :=
  Eval vm_compute in map (fun p => w32 (N.sqrt (p * 2 ^ 64))) (firstn 8 primes64).

(** Big-endian words. *)
Definition be_bytes (width : nat) (x : N) : list byte :=
  map (fun i => byte_of_N (N.shiftr x (8 * N.of_nat i))) (rev (seq 0 width)).
Definition be_word (bs : list byte) : N :=
  fold_left (fun acc b => acc * 256 + Byte.to_N b) bs 0.

(** Padding: a one bit, zeros up to 56 modulo 64, the bit length on 8 bytes. *)
Definition pad (msg : list byte) : list byte :=
  let len := N.of_nat (length msg) in
  let zeros := (64 - ((len + 9) mod 64)) mod 64 in
  msg ++ x80 :: repeat x00 (N.to_nat zeros) ++ be_bytes 8 (8 * len).

Fixpoint chunks (fuel size : nat) (bs : list byte) : list (list byte) :=
  match fuel, bs with
  | O, _ | _, [] => []
  | S fuel', _ => firstn size bs :: chunks fuel' size (skipn size bs)
  end.

Definition words_of_block (block : list byte) : list N :=
  map be_word (chunks 16 4 block).

(** Message schedule: sixteen block words extended to sixty-four. *)
Definition schedule (block : list N) : list N :=
  fold_left
    (fun ws t =>
       let get i := nth (t - i) ws 0 in
       ws ++ [add32 (add32 (ssig1 (get 2%nat)) (get 7%nat))
                    (add32 (ssig0 (get 15%nat)) (get 16%nat))])
    (seq 16 48) block.

Record state : Type := mkState
  { sa : N; sb : N; sc : N; sd : N; se : N; sf : N; sg : N; sh : N }.

Definition round (s : state) (kw : N * N) : state :=
  let t1 := add32 (add32 (add32 (sh s) (bsig1 (se s))) (ch (se s) (sf s) (sg s)))
                  (add32 (fst kw) (snd kw)) in
  let t2 := add32 (bsig0 (sa s)) (maj (sa s) (sb s) (sc s)) in
  mkState (add32 t1 t2) (sa s) (sb s) (sc s) (add32 (sd s) t1) (se s) (sf s) (sg s).

Definition compress (s : state) (block : list byte) : state :=
  let r := fold_left round (combine K (schedule (words_of_block block))) s in
  mkState (add32 (sa s) (sa r)) (add32 (sb s) (sb r)) (add32 (sc s) (sc r))
          (add32 (sd s) (sd r)) (add32 (se s) (se r)) (add32 (sf s) (sf r))
          (add32 (sg s) (sg r)) (add32 (sh s) (sh r)).

Definition init : state :=
  let h i := nth i H0 0 in
  mkState (h 0%nat) (h 1%nat) (h 2%nat) (h 3%nat) (h 4%nat) (h 5%nat) (h 6%nat) (h 7%nat).

Definition digest (msg : list byte) : list byte :=
  let padded := pad msg in
  let s := fold_left compress (chunks (length padded) 64 padded) init in
  flat_map (be_bytes 4) [sa s; sb s; sc s; sd s; se s; sf s; sg s; sh s].

End SHA256.

(** ** Outcomes of a call

    A call returns, throws, or (in the model only) runs out of fuel: the
    decoder recurses through [defined] references, so a schema that refers
    to itself makes [decodeType] recurse without end. *)
Inductive Exn : Type :=
| RangeError        (* a [DataView] accessor or [set] outside the buffer *)
| TypeError         (* the [in] operator applied to [undefined] *)
| InvalidPublicKey  (* thrown by the [PublicKey] constructor *).

Inductive Res (A : Type) : Type :=
| Ok (a : A)
| Throw (e : Exn)
| OutOfFuel.
Arguments Ok {A} a.
Arguments Throw {A} e.
Arguments OutOfFuel {A}.

Definition bind {A B : Type} (c : Res A) (k : A -> Res B) : Res B :=
  match c with
  | Ok a => k a
  | Throw e => Throw e
  | OutOfFuel => OutOfFuel
  end.

Declare Scope res_scope.
Delimit Scope res_scope with res.
Notation "x <- c ;; k" := (bind c (fun x => k))
  (at level 61, c at next level, right associativity) : res_scope.
Notation "' pat <- c ;; k" := (bind c (fun x => match x with pat => k end))
  (at level 61, pat pattern, c at next level, right associativity) : res_scope.
Local Open Scope res_scope.

(** The spec's name for a read past the end of the buffer. *)
Definition BufferUnderrun : Exn := RangeError.

(** ** Schema model: the types [Idl], [IdlEnumVariant] and [IdlType] *)

Inductive IdlType : Type :=
| TU8 | TI8 | TU16 | TI16 | TU32 | TI32 | TU64 | TI64
| TBool | TString | TPublicKey | TBytes
| TVec (elem : IdlType)
| TOption (inner : IdlType)
| TArray (elem : IdlType) (count : N)
| TDefined (name : string).

Record Field : Type := mkField { fname : string; ftype : IdlType }.

(** An element of a variant's flat [fields] array: a named field
    [{name, type}] or a bare type descriptor. *)
Inductive FlatElem : Type :=
| ENamed (f : Field)
| EType (t : IdlType).

Inductive VariantFields : Type :=
| FlatArray (elems : list FlatElem)
| KindStruct (fields : list Field)   (* { kind: "struct", fields } *)
| KindTuple (tys : list IdlType)     (* { kind: "tuple", types } *).

Record IdlEnumVariant : Type :=
  mkVariant { vname : string; vfields : option VariantFields }.

Inductive TypeDef : Type :=
| DefStruct (fields : list Field)
| DefEnum (variants : list IdlEnumVariant).

Inductive AccountType : Type :=
| AccStruct (fields : list Field)
| AccDefined (name : string).

Record IdlAccount : Type :=
  mkAccount { acc_name : string; acc_type : option AccountType }.
Record IdlTypeEntry : Type :=
  mkTypeEntry { ty_name : string; ty_type : TypeDef }.

(** [accounts] and [types] are optional in the source; every use treats a
    missing array as the empty one ([?.find], [?? []], [!idl.accounts]). *)
Record Idl : Type := mkIdl { accounts : list IdlAccount; types : list IdlTypeEntry }.

(** ** Decoded values

    Numbers, strings, [null], arrays and plain objects. A string is kept
    as the sequence of its UTF-8 bytes. An object keeps its properties in
    insertion order, and assigning to a key that exists replaces its value
    in place (keys that look like array indices, which JavaScript lists
    first, are not set apart). *)
#[warnings="-register-all"]
Inductive Value : Type :=
| VNull
| VNum (z : Z)
| VBool (b : bool)
| VStr (s : string)
| VArr (items : list Value)
| VObj (props : list (string * Value)).

Fixpoint obj_set (props : list (string * Value)) (k : string) (v : Value)
  : list (string * Value) :=
  match props with
  | [] => [(k, v)]
  | (k', v') :: rest =>
      if String.eqb k' k then (k', v) :: rest else (k', v') :: obj_set rest k v
  end.

(** ** Typed arrays and [DataView] *)

(** [bytes.slice(start, end)] clamps both ends to the array. *)
Definition Uint8Array_slice (bytes : list byte) (start stop : N) : list byte :=
  firstn (N.to_nat (stop - start)) (skipn (N.to_nat start) bytes).

(** [bytes.slice(start)]. *)
Definition Uint8Array_slice_from (bytes : list byte) (start : N) : list byte :=
  skipn (N.to_nat start) bytes.

(** [new Uint8Array(n)] is zero-filled. *)
Definition Uint8Array_new (n : nat) : list byte := repeat x00 n.

(** [target.set(src, offset)] copies [src] into [target] and throws a
    [RangeError] when it does not fit. *)
Definition Uint8Array_set (target src : list byte) (offset : nat) : Res (list byte) :=
  if (offset + List.length src <=? List.length target)%nat
  then Ok (firstn offset target ++ src ++ skipn (offset + List.length src) target)
  else Throw RangeError.

(** Little-endian value of a run of bytes. *)
Fixpoint le_value (bs : list byte) : N :=
  match bs with
  | [] => 0
  | b :: rest => Byte.to_N b + 256 * le_value rest
  end.

(** Two's complement reading of a [bits]-wide number. *)
Definition to_signed (bits : N) (n : N) : Z :=
  if n <? 2 ^ (bits - 1) then Z.of_N n else (Z.of_N n - 2 ^ Z.of_N bits)%Z.

(** The accessors of [DataView] throw a [RangeError] unless the [width]
    bytes at [offset] lie inside the view. *)
Definition view_get (bytes : list byte) (offset width : N) : Res N :=
  if offset + width <=? N.of_nat (List.length bytes)
  then Ok (le_value (firstn (N.to_nat width) (skipn (N.to_nat offset) bytes)))
  else Throw RangeError.

Definition getUint (bits : N) (bytes : list byte) (offset : N) : Res Z :=
  n <- view_get bytes offset (bits / 8) ;; Ok (Z.of_N n).
Definition getInt (bits : N) (bytes : list byte) (offset : N) : Res Z :=
  n <- view_get bytes offset (bits / 8) ;; Ok (to_signed bits n).

(** ** Readers *)

Definition readU8 (bytes : list byte) (offset : N) : Res (Z * N) :=
  v <- getUint 8 bytes offset ;; Ok (v, offset + 1).
Definition readI8 (bytes : list byte) (offset : N) : Res (Z * N) :=
  v <- getInt 8 bytes offset ;; Ok (v, offset + 1).
Definition readU16 (bytes : list byte) (offset : N) : Res (Z * N) :=
  v <- getUint 16 bytes offset ;; Ok (v, offset + 2).
Definition readI16 (bytes : list byte) (offset : N) : Res (Z * N) :=
  v <- getInt 16 bytes offset ;; Ok (v, offset + 2).
Definition readU32 (bytes : list byte) (offset : N) : Res (Z * N) :=
  v <- getUint 32 bytes offset ;; Ok (v, offset + 4).
Definition readI32 (bytes : list byte) (offset : N) : Res (Z * N) :=
  v <- getInt 32 bytes offset ;; Ok (v, offset + 4).
Definition readU64 (bytes : list byte) (offset : N) : Res (Z * N) :=
  v <- getUint 64 bytes offset ;; Ok (v, offset + 8).
Definition readI64 (bytes : list byte) (offset : N) : Res (Z * N) :=
  v <- getInt 64 bytes offset ;; Ok (v, offset + 8).

Definition readBool (bytes : list byte) (offset : N) : Res (bool * N) :=
  '(v, n) <- readU8 bytes offset ;; Ok (negb (v =? 0)%Z, n).

(** [BigInt.prototype.toString()]: the decimal numeral. *)
Definition bigint_toString (z : Z) : string := NilZero.string_of_int (Z.to_int z).

(** [toHex]: two lowercase hexadecimal digits per byte. *)
Definition hex_digit (n : N) : string :=
  String.substring (N.to_nat n) 1 "0123456789abcdef".
Definition Number_toString16 (n : N) : string :=
  if n <? 16 then hex_digit n else (hex_digit (n / 16) ++ hex_digit (n mod 16))%string.
Definition padStart2 (s : string) : string :=
  match String.length s with
  | O => "00"
  | 1%nat => ("0" ++ s)
  | _ => s
  end%string.
Definition toHex (bytes : list byte) : string :=
  String.concat "" (map (fun b => padStart2 (Number_toString16 (Byte.to_N b))) bytes).

(** [Uint8Array.from(arr as number[])]: each number modulo 256, anything
    that is not a number as 0. *)
Definition Uint8Array_from (arr : list Value) : list byte :=
  map (fun v => match v with
                | VNum z => byte_of_N (Z.to_N (z mod 256))
                | _ => x00
                end) arr.

(** [new TextEncoder().encode(s)]: the UTF-8 bytes of [s]. *)
Definition TextEncoder_encode (s : string) : list byte := list_byte_of_string s.

(** The test on the first element of a flat [fields] array (source line
    171): [typeof x === "object"] and none of the keys [vec], [option],
    [array], [defined]. A primitive type descriptor is a string. *)
Definition typeof_object (x : FlatElem) : bool :=
  match x with
  | ENamed _ => true
  | EType (TVec _ | TOption _ | TArray _ _ | TDefined _) => true
  | EType _ => false
  end.

Definition has_key (k : string) (x : FlatElem) : bool :=
  match x with
  | ENamed _ => String.eqb k "name" || String.eqb k "type"
  | EType (TVec _) => String.eqb k "vec"
  | EType (TOption _) => String.eqb k "option"
  | EType (TArray _ _) => String.eqb k "array"
  | EType (TDefined _) => String.eqb k "defined"
  | EType _ => false
  end.

Definition looksLikeNamedFields (fields : list FlatElem) : bool :=
  match fields with
  | [] => false                       (* fields.length > 0 *)
  | x :: _ =>
      typeof_object x && negb (has_key "vec" x) && negb (has_key "option" x)
      && negb (has_key "array" x) && negb (has_key "defined" x)
  end.

(** ** Schema lookups *)

Definition resolveDefined (idl : Idl) (name : string) : option TypeDef :=
  match find (fun t => String.eqb (ty_name t) name) (types idl) with
  | Some def => Some (ty_type def)
  | None => None
  end.

Definition getAccountStructFields (idl : Idl) (name : string) : option (list Field) :=
  let acc := find (fun a => String.eqb (acc_name a) name) (accounts idl) in
  let fromTypes :=
    match find (fun t => String.eqb (ty_name t) name) (types idl) with
    | Some (mkTypeEntry _ (DefStruct fields)) => Some fields
    | _ => None
    end in
  match acc with
  | Some (mkAccount _ (Some (AccStruct fields))) => Some fields
  | Some (mkAccount _ (Some (AccDefined d))) =>
      match resolveDefined idl d with
      | Some (DefStruct fields) => Some fields
      | _ => fromTypes
      end
  | _ => fromTypes
  end.

(** ** A reference platform

    Concrete versions of the library calls, used to run the decoder on
    examples: [bs58] encoding and the [PublicKey] of [@solana/web3.js]
    (a big-endian number of at most 32 bytes, printed from its 32-byte
    form), and a [TextDecoder] restricted to well-formed input without a
    byte order mark, which it returns unchanged. *)
Module Reference.

Definition base58_alphabet : string :=
  "123456789ABCDEFGHJKLMNPQRSTUVWXYZabcdefghijkmnopqrstuvwxyz".

Fixpoint base58_digits (fuel : nat) (n : N) (acc : string) : string :=
  match fuel with
  | O => acc
  | S fuel' =>
      if n =? 0 then acc
      else base58_digits fuel' (n / 58)
             (String.substring (N.to_nat (n mod 58)) 1 base58_alphabet ++ acc)%string
  end.

Fixpoint leading_zeros (bs : list byte) : nat :=
  match bs with
  | x00 :: rest => S (leading_zeros rest)
  | _ => O
  end.

Definition bs58_encode (bs : list byte) : string :=
  (String.concat "" (repeat "1"%string (leading_zeros bs))
   ++ base58_digits (2 * List.length bs) (SHA256.be_word bs) "")%string.

Definition PublicKey_toBase58 (bs : list byte) : option string :=
  let n := SHA256.be_word bs in
  if 2 ^ 256 <=? n then None
  else Some (bs58_encode (SHA256.be_bytes 32 n)).

Definition TextDecoder_decode (bs : list byte) : string := string_of_list_byte bs.

Definition sha256 : list byte -> list byte := SHA256.digest.

End Reference.

(** ** Hexadecimal and base64 display *)




Section Base64.

(** [btoa]: the base64 text of a string of code units, given as the list
    of its codes; it throws on a code above 255, here [None]. *)
Variable btoa : list N -> option string.

(** [String.fromCharCode.apply(null, codes)]: one code unit per number,
    each taken modulo 2^16. *)
Definition String_fromCharCode (codes : list N) : list N :=
  map (fun c => c mod 65536) codes.

(** The loop of [toBase64], in steps of [chunkSize = 0x8000] bytes. *)
Fixpoint toBase64_from (fuel : nat) (bytes : list byte) (i : N) (binary : list N)
  : Res (list N) :=
  if i <? N.of_nat (List.length bytes) then
    match fuel with
    | O => OutOfFuel
    | S fuel' =>
        let chunk := Uint8Array_slice bytes i (i + 0x8000) in
        toBase64_from fuel' bytes (i + 0x8000)
          (binary ++ String_fromCharCode (map Byte.to_N chunk))
    end
  else Ok binary.

Definition toBase64 (fuel : nat) (bytes : list byte) : Res (option string) :=
  binary <- toBase64_from fuel bytes 0 [] ;;
  Ok (btoa binary).

End Base64.

(** ** Seed input of the PDA tool *)

(** The white space and line terminators that [String.prototype.trim]
    removes, each as its UTF-8 bytes: TAB, LF, VT, FF, CR, SPACE, U+00A0,
    U+1680, U+2000 to U+200A, U+2028, U+2029, U+202F, U+205F, U+3000 and
    U+FEFF. *)
Definition whitespace_utf8 : list (list byte) :=
  [[x09]; [x0a]; [x0b]; [x0c]; [x0d]; [x20]; [xc2; xa0]; [xe1; x9a; x80];
   [xe2; x80; x80]; [xe2; x80; x81]; [xe2; x80; x82]; [xe2; x80; x83];
   [xe2; x80; x84]; [xe2; x80; x85]; [xe2; x80; x86]; [xe2; x80; x87];
   [xe2; x80; x88]; [xe2; x80; x89]; [xe2; x80; x8a]; [xe2; x80; xa8];
   [xe2; x80; xa9]; [xe2; x80; xaf]; [xe2; x81; x9f]; [xe3; x80; x80];
   [xef; xbb; xbf]].

Fixpoint strip_prefix (p s : list byte) : option (list byte) :=
  match p, s with
  | [], _ => Some s
  | x :: p', y :: s' => if Byte.eqb x y then strip_prefix p' s' else None
  | _ :: _, [] => None
  end.

(** The rest of [s] after one leading white space character, if any. *)
Fixpoint strip_one (patterns : list (list byte)) (s : list byte) : option (list byte) :=
  match patterns with
  | [] => None
  | p :: more =>
      match strip_prefix p s with
      | Some rest => Some rest
      | None => strip_one more s
      end
  end.

Fixpoint strip_all (fuel : nat) (patterns : list (list byte)) (s : list byte) : list byte :=
  match fuel with
  | O => s
  | S fuel' =>
      match strip_one patterns s with
      | Some rest => strip_all fuel' patterns rest
      | None => s
      end
  end.

(** [s.trim()]. Each removal shortens the text, so its length bounds
    the number of removals. *)
Definition String_trim (s : string) : string :=
  let bs := list_byte_of_string s in
  let front := strip_all (List.length bs) whitespace_utf8 bs in
  let back := strip_all (List.length front) (map (@rev byte) whitespace_utf8) (rev front) in
  string_of_list_byte (rev back).

(** The regular expression [/^0x[0-9a-fA-F]+$/]. *)
Definition is_hex_digit (c : ascii) : bool :=
  let n := N_of_ascii c in
  ((48 <=? n) && (n <=? 57)) || ((97 <=? n) && (n <=? 102)) || ((65 <=? n) && (n <=? 70)).

Definition matches_hex_seed (t : string) : bool :=
  match t with
  | String "0" (String "x" (String c rest)) =>
      forallb is_hex_digit (list_ascii_of_string (String c rest))
  | _ => false
  end.

(** [parseInt(s, 16)] of a string of hexadecimal digits. *)
Definition hex_digit_value (c : ascii) : N :=
  let n := N_of_ascii c in
  if n <=? 57 then n - 48 else if n <=? 70 then n - 55 else n - 87.

Definition parseInt16 (s : string) : N :=
  fold_left (fun acc c => 16 * acc + hex_digit_value c) (list_ascii_of_string s) 0.

(** The loop of the hexadecimal branch: [out[i / 2]] is the value of
    the two digits at [i]. *)
Fixpoint hex_pairs (digits : list ascii) : list byte :=
  match digits with
  | c1 :: c2 :: rest =>
      byte_of_N (parseInt16 (String c1 (String c2 ""))) :: hex_pairs rest
  | _ => []
  end.

Section SeedInput.

(** [bs58.decode], which throws on a character outside its alphabet. *)
Variable bs58_decode : string -> option (list byte).

(** The result is the bytes of the seed, or the message of the [Error]
    thrown. *)
Definition parseSeedInput (s : string) : string + list byte :=
  let t := String_trim s in
  if String.eqb t "" then inr []
  else if matches_hex_seed t then
    let hex := String.substring 2 (String.length t - 2) t in
    if Nat.eqb (String.length hex mod 2) 0
    then inr (hex_pairs (list_ascii_of_string hex))
    else inl "Invalid hex seed: odd length"%string
  else
    match bs58_decode t with
    | Some bytes =>
        if (List.length bytes <=? 32)%nat then inr bytes else inr (TextEncoder_encode t)
    | None => inr (TextEncoder_encode t)
    end.

(** The loop of [onDerive] over the seed inputs, [i] counting from 0:
    blank inputs are skipped, and a seed of more than 32 bytes throws. *)
Fixpoint collectSeeds_from (i : nat) (inputs : list string) (seeds : list (list byte))
  : string + list (list byte) :=
  match inputs with
  | [] => inr seeds
  | raw :: rest =>
      if String.eqb (String_trim raw) "" then collectSeeds_from (S i) rest seeds
      else
        match parseSeedInput raw with
        | inl message => inl message
        | inr bytes =>
            if (32 <? List.length bytes)%nat
            then inl ("Seed " ++ NilZero.string_of_uint (Nat.to_uint (i + 1))
                      ++ " exceeds 32 bytes")%string
            else collectSeeds_from (S i) rest (seeds ++ [bytes])
        end
  end.

Definition collectSeeds (inputs : list string) : string + list (list byte) :=
  collectSeeds_from 0 inputs [].

End SeedInput.

(** ** Reference codecs

    Concrete versions of two more library calls, used to run the tools on
    examples: [btoa] (base64 with [=] padding, refusing codes above 255)
    and [bs58.decode] (refusing characters outside the alphabet). *)
Module Codecs.

Definition base64_alphabet : string :=
  "ABCDEFGHIJKLMNOPQRSTUVWXYZabcdefghijklmnopqrstuvwxyz0123456789+/".

Definition base64_char (n : N) : string :=
  String.substring (N.to_nat (n mod 64)) 1 base64_alphabet.

Fixpoint base64_groups (codes : list N) : string :=
  match codes with
  | [] => ""
  | [a] =>
      base64_char (a / 4) ++ base64_char (a mod 4 * 16) ++ "=="
  | [a; b] =>
      base64_char (a / 4) ++ base64_char (a mod 4 * 16 + b / 16)
      ++ base64_char (b mod 16 * 4) ++ "="
  | a :: b :: c :: rest =>
      base64_char (a / 4) ++ base64_char (a mod 4 * 16 + b / 16)
      ++ base64_char (b mod 16 * 4 + c / 64) ++ base64_char (c mod 64)
      ++ base64_groups rest
  end%string.

Definition btoa (codes : list N) : option string :=
  if forallb (fun c => c <? 256) codes then Some (base64_groups codes) else None.

Fixpoint index_of (c : ascii) (alphabet : list ascii) : option N :=
  match alphabet with
  | [] => None
  | x :: rest =>
      if Ascii.eqb x c then Some 0 else option_map N.succ (index_of c rest)
  end.

Fixpoint base58_value (chars : list ascii) (acc : N) : option N :=
  match chars with
  | [] => Some acc
  | c :: rest =>
      match index_of c (list_ascii_of_string Reference.base58_alphabet) with
      | Some d => base58_value rest (acc * 58 + d)
      | None => None
      end
  end.

Fixpoint leading_ones (chars : list ascii) : nat :=
  match chars with
  | "1"%char :: rest => S (leading_ones rest)
  | _ => O
  end.

(** The bytes of a number, most significant first, none for 0. *)
Fixpoint be_minimal (fuel : nat) (n : N) (acc : list byte) : list byte :=
  match fuel with
  | O => acc
  | S fuel' => if n =? 0 then acc else be_minimal fuel' (n / 256) (byte_of_N n :: acc)
  end.

Definition bs58_decode (s : string) : option (list byte) :=
  let chars := list_ascii_of_string s in
  match base58_value chars 0 with
  | Some n => Some (repeat x00 (leading_ones chars) ++ be_minimal (List.length chars) n [])
  | None => None
  end.

End Codecs.

(** ** The decoder *)

Section Decoder.

(** Platform and library functions the decoder calls:
    [crypto.subtle.digest("SHA-256", _)], [new TextDecoder().decode(_)]
    (lossy, it never throws) and [new PublicKey(_).toBase58()], whose
    constructor may throw. *)
Variable sha256 : list byte -> list byte.
Variable TextDecoder_decode : list byte -> string.
Variable PublicKey_toBase58 : list byte -> option string.

(** A SHA-256 digest has 32 bytes. *)
Hypothesis sha256_length : forall m, List.length (sha256 m) = 32%nat.

(** The value [{ tag, name }] or [{ tag, name, value }] of an enum. *)
Definition enum_value (tag : Z) (name : string) (value : option Value) : Value :=
  VObj ([("tag", VNum tag); ("name", VStr name)]%string
        ++ match value with
           | Some v => [("value"%string, v)]
           | None => []
           end).

Definition readString (bytes : list byte) (offset : N) : Res (string * N) :=
  '(len, no) <- readU32 bytes offset ;;
  let slice := Uint8Array_slice bytes no (no + Z.to_N len) in
  Ok (TextDecoder_decode slice, no + Z.to_N len).

(** In the functions below [dec] is the recursive call
    [decodeType(view, bytes, _, _, idl)]; view, bytes and schema do not
    change during a decode. *)
Section Loops.
Variable dec : N -> IdlType -> Res (Value * N).

(** [for (let i = 0; i < count; i++)] of [readVec] and [readArray]. *)
Fixpoint read_elems (count : nat) (elem : IdlType) (out : list Value) (off : N)
  : Res (list Value * N) :=
  match count with
  | O => Ok (out, off)
  | S count' =>
      '(v, n) <- dec off elem ;;
      read_elems count' elem (out ++ [v]) n
  end.

Definition readVec (bytes : list byte) (offset : N) (elem : IdlType)
  : Res (list Value * N) :=
  '(len, no) <- readU32 bytes offset ;;
  read_elems (Z.to_nat len) elem [] no.

Definition readArray (offset : N) (elem : IdlType) (count : N)
  : Res (list Value * N) :=
  read_elems (N.to_nat count) elem [] offset.

(** [for (const f of fields) { ...; obj[f.name] = v; off = n }]. *)
Fixpoint decode_fields (fields : list Field) (obj : list (string * Value)) (off : N)
  : Res (list (string * Value) * N) :=
  match fields with
  | [] => Ok (obj, off)
  | f :: rest =>
      '(v, n) <- dec off (ftype f) ;;
      decode_fields rest (obj_set obj (fname f) v) n
  end.

(** [for (const t of types) { ...; arr.push(v); off = n }]. *)
Fixpoint decode_types (tys : list IdlType) (arr : list Value) (off : N)
  : Res (list Value * N) :=
  match tys with
  | [] => Ok (arr, off)
  | t :: rest =>
      '(v, n) <- dec off t ;;
      decode_types rest (arr ++ [v]) n
  end.

Definition decodeStruct (offset : N) (fields : list Field)
  : Res (list (string * Value) * N) :=
  decode_fields fields [] offset.

(** The two loops over a flat array. Read as a named field, a bare
    type descriptor has no [type]: [decodeType] receives [undefined]
    and its test ["vec" in type] throws a [TypeError]. Read as a type
    descriptor, an object [{name, type}] has none of the keys
    [decodeType] looks for and decodes to [null] in place. *)
Fixpoint decode_flat_named (elems : list FlatElem) (obj : list (string * Value)) (off : N)
  : Res (list (string * Value) * N) :=
  match elems with
  | [] => Ok (obj, off)
  | ENamed f :: rest =>
      '(v, n) <- dec off (ftype f) ;;
      decode_flat_named rest (obj_set obj (fname f) v) n
  | EType _ :: _ => Throw TypeError
  end.

Fixpoint decode_flat_types (elems : list FlatElem) (arr : list Value) (off : N)
  : Res (list Value * N) :=
  match elems with
  | [] => Ok (arr, off)
  | x :: rest =>
      '(v, n) <- match x with
                 | EType t => dec off t
                 | ENamed _ => Ok (VNull, off)
                 end ;;
      decode_flat_types rest (arr ++ [v]) n
  end.

Definition decodeEnum (bytes : list byte) (offset : N) (variants : list IdlEnumVariant)
  : Res (Value * N) :=
  '(tag, no) <- readU8 bytes offset ;;
  match nth_error variants (Z.to_nat tag) with
  | None => Ok (enum_value tag "Unknown" None, no)
  | Some variant =>
      match vfields variant with
      | None => Ok (enum_value tag (vname variant) None, no)
      | Some (FlatArray fields) =>
          if looksLikeNamedFields fields then
            '(obj, off) <- decode_flat_named fields [] no ;;
            Ok (enum_value tag (vname variant) (Some (VObj obj)), off)
          else
            '(arr, off) <- decode_flat_types fields [] no ;;
            Ok (enum_value tag (vname variant) (Some (VArr arr)), off)
      | Some (KindStruct fields) =>
          '(obj, off) <- decode_fields fields [] no ;;
          Ok (enum_value tag (vname variant) (Some (VObj obj)), off)
      | Some (KindTuple tys) =>
          '(arr, off) <- decode_types tys [] no ;;
          Ok (enum_value tag (vname variant) (Some (VArr arr)), off)
      end
  end.
End Loops.

(** [view] is a [DataView] over exactly [bytes], so one list stands for
    both. The schema comes before the cursor, which makes
    [decodeType fuel bytes idl] the recursive call [dec] of the loops. *)
Fixpoint decodeType (fuel : nat) (bytes : list byte) (idl : Idl)
                    (offset : N) (type : IdlType) {struct fuel} : Res (Value * N) :=
  match fuel with
  | O => OutOfFuel
  | S fuel' =>
      let dec := decodeType fuel' bytes idl in
      match type with
      | TU8 => '(v, n) <- readU8 bytes offset ;; Ok (VNum v, n)
      | TI8 => '(v, n) <- readI8 bytes offset ;; Ok (VNum v, n)
      | TU16 => '(v, n) <- readU16 bytes offset ;; Ok (VNum v, n)
      | TI16 => '(v, n) <- readI16 bytes offset ;; Ok (VNum v, n)
      | TU32 => '(v, n) <- readU32 bytes offset ;; Ok (VNum v, n)
      | TI32 => '(v, n) <- readI32 bytes offset ;; Ok (VNum v, n)
      | TU64 => '(v, n) <- readU64 bytes offset ;; Ok (VStr (bigint_toString v), n)
      | TI64 => '(v, n) <- readI64 bytes offset ;; Ok (VStr (bigint_toString v), n)
      | TBool => '(v, n) <- readBool bytes offset ;; Ok (VBool v, n)
      | TString => '(s, n) <- readString bytes offset ;; Ok (VStr s, n)
      | TPublicKey =>
          let slice := Uint8Array_slice bytes offset (offset + 32) in
          match PublicKey_toBase58 slice with
          | Some pk => Ok (VStr pk, offset + 32)
          | None => Throw InvalidPublicKey
          end
      | TBytes =>
          '(arr, n) <- readVec dec bytes offset TU8 ;;
          Ok (VStr ("0x" ++ toHex (Uint8Array_from arr)), n)
      | TVec elem =>
          '(arr, n) <- readVec dec bytes offset elem ;; Ok (VArr arr, n)
      | TOption inner =>
          '(has, no) <- readU8 bytes offset ;;
          if (has =? 0)%Z then Ok (VNull, no) else dec no inner
      | TArray elem count =>
          '(arr, n) <- readArray dec offset elem count ;; Ok (VArr arr, n)
      | TDefined name =>
          match resolveDefined idl name with
          | None => Ok (VNull, offset)
          | Some (DefStruct fields) =>
              '(obj, n) <- decodeStruct dec offset fields ;; Ok (VObj obj, n)
          | Some (DefEnum variants) => decodeEnum dec bytes offset variants
          end
      end
  end.

(** ** Discriminator and account resolver *)

Definition anchorDiscriminatorForAccount (name : string) : Res (list byte) :=
  let prefix := TextEncoder_encode "account:" in
  let n := TextEncoder_encode name in
  let data := Uint8Array_new (List.length prefix + List.length n) in
  data <- Uint8Array_set data prefix 0 ;;
  data <- Uint8Array_set data n (List.length prefix) ;;
  let hash := sha256 data in
  Ok (Uint8Array_slice hash 0 8).

(** [Array.from(d).every((v, i) => v === other[i])], from index [i] on;
    an index outside [other] reads [undefined]. *)
Fixpoint every_eq_from (i : nat) (d other : list byte) : bool :=
  match d with
  | [] => true
  | v :: d' =>
      match nth_error other i with
      | Some b => Byte.eqb v b
      | None => false
      end && every_eq_from (S i) d' other
  end.
Definition every_eq (d other : list byte) : bool := every_eq_from 0 d other.

Definition Account : Type := string * Value.  (* { accountName, data } *)

(** The loop of [parseAccountWithIdl] over the accounts still to try. *)
Fixpoint parseAccountWithIdl_from (fuel : nat) (bytes : list byte) (idl : Idl)
                                  (accs : list IdlAccount) : Res (option Account) :=
  match accs with
  | [] => Ok None
  | acc :: rest =>
      let disc := Uint8Array_slice bytes 0 8 in
      d <- anchorDiscriminatorForAccount (acc_name acc) ;;
      if every_eq d disc then
        let body := Uint8Array_slice_from bytes 8 in
        match getAccountStructFields idl (acc_name acc) with
        | None => parseAccountWithIdl_from fuel bytes idl rest   (* continue *)
        | Some fields =>
            '(obj, _) <- decodeStruct (decodeType fuel body idl) 0 fields ;;
            Ok (Some (acc_name acc, VObj obj))
        end
      else parseAccountWithIdl_from fuel bytes idl rest
  end.

Definition parseAccountWithIdl (fuel : nat) (bytes : list byte) (idl : Idl)
  : Res (option Account) :=
  match accounts idl with
  | [] => Ok None
  | accs => parseAccountWithIdl_from fuel bytes idl accs
  end.

(** [selected] is [undefined] or a string; the empty string is falsy and
    selects auto-detection, as the [Auto detect] option of the page does. *)
Definition parseAccountAutoOrSelected (fuel : nat) (bytes : list byte) (idl : Idl)
                                      (selected : option string) : Res (option Account) :=
  match selected with
  | Some (String _ _ as sel) =>
      match find (fun a => String.eqb (acc_name a) sel) (accounts idl) with
      | None => Ok None
      | Some acc =>
          let hasDisc := 8 <=? N.of_nat (List.length bytes) in
          useOffset <-
            (if hasDisc then
               d <- anchorDiscriminatorForAccount (acc_name acc) ;;
               Ok (if every_eq d bytes then 8 else 0)
             else Ok 0) ;;
          let body := Uint8Array_slice_from bytes useOffset in
          match getAccountStructFields idl (acc_name acc) with
          | None => Ok None
          | Some fields =>
              '(obj, _) <- decodeStruct (decodeType fuel body idl) 0 fields ;;
              Ok (Some (acc_name acc, VObj obj))
          end
      end
  | _ => parseAccountWithIdl fuel bytes idl
  end.

(** ** The specification's vocabulary

    What the specification calls the discriminator of an account type,
    a buffer that carries the tag of an account type, and the decoding
    of a buffer from a given position against a field list. *)

Definition discriminatorOf (name : string) : list byte :=
  firstn 8 (sha256 (list_byte_of_string ("account:" ++ name))).

Fixpoint bytes_eqb (a b : list byte) : bool :=
  match a, b with
  | [], [] => true
  | x :: a', y :: b' => Byte.eqb x y && bytes_eqb a' b'
  | _, _ => false
  end.

Definition tag_matches (bytes : list byte) (acc : IdlAccount) : bool :=
  bytes_eqb (firstn 8 bytes) (discriminatorOf (acc_name acc)).

Definition has_fields (idl : Idl) (acc : IdlAccount) : bool :=
  match getAccountStructFields idl (acc_name acc) with
  | Some _ => true
  | None => false
  end.

Definition decodeAccount (fuel : nat) (bytes : list byte) (idl : Idl) (start : nat)
                         (name : string) (fields : list Field) : Res (option Account) :=
  '(obj, _) <- decodeStruct (decodeType fuel (skipn start bytes) idl) 0 fields ;;
  Ok (Some (name, VObj obj)).

(** Values decoded one after the other, each from where the one
    before it ended. *)
Inductive decodes_seq (dec : N -> IdlType -> Res (Value * N))
  : N -> list IdlType -> list Value -> N -> Prop :=
| decodes_nil off : decodes_seq dec off [] [] off
| decodes_cons off t v n tys vs off' :
    dec off t = Ok (v, n) ->
    decodes_seq dec n tys vs off' ->
    decodes_seq dec off (t :: tys) (v :: vs) off'.

(** The object whose properties are assigned in the given order. *)
Definition object_of (names : list string) (vs : list Value) : list (string * Value) :=
  fold_left (fun obj kv => obj_set obj (fst kv) (snd kv)) (combine names vs) [].

(** The three payload shapes of a variant. A flat array holds bare
    type descriptors (a tuple; the empty array is the empty tuple) or
    named fields (a struct); an array that mixes both has no shape. *)
Inductive Shape : Type :=
| ShapeUnit
| ShapeTuple (tys : list IdlType)
| ShapeStruct (fields : list Field).

Fixpoint all_types (elems : list FlatElem) : option (list IdlType) :=
  match elems with
  | [] => Some []
  | EType t :: rest => option_map (cons t) (all_types rest)
  | ENamed _ :: _ => None
  end.

Fixpoint all_named (elems : list FlatElem) : option (list Field) :=
  match elems with
  | [] => Some []
  | ENamed f :: rest => option_map (cons f) (all_named rest)
  | EType _ :: _ => None
  end.

Definition shape_of (v : IdlEnumVariant) : option Shape :=
  match vfields v with
  | None => Some ShapeUnit
  | Some (KindStruct fields) => Some (ShapeStruct fields)
  | Some (KindTuple tys) => Some (ShapeTuple tys)
  | Some (FlatArray elems) =>
      match all_types elems with
      | Some tys => Some (ShapeTuple tys)
      | None => option_map ShapeStruct (all_named elems)
      end
  end.

(** The number a decimal numeral denotes. *)
Definition decimal_value (s : string) : option Z :=
  option_map Z.of_int (NilZero.int_of_string s).

(** The schemas of the specification's scenarios A and B. *)
Definition scenarioA_idl : Idl :=
  mkIdl [mkAccount "Counter" (Some (AccStruct [mkField "count" TU64]))] [].

Definition scenarioB_idl : Idl :=
  mkIdl []
    [mkTypeEntry "Status"
       (DefEnum [mkVariant "Idle" None;
                 mkVariant "Active" (Some (KindStruct [mkField "amount" TU32]))])].

(** [dec'] agrees with [dec] wherever [dec] does not run out of fuel. *)
Definition extends (dec dec' : N -> IdlType -> Res (Value * N)) : Prop :=
  forall off t, dec off t <> OutOfFuel -> dec' off t = dec off t.

(** [dec] never returns a cursor before the one it was given. *)
Definition advances (dec : N -> IdlType -> Res (Value * N)) : Prop :=
  forall off t v n, dec off t = Ok (v, n) -> off <= n.

(** Types all of whose reads go through the [DataView]: they hold no
    string and no public key, the two types that are cut out of the
    buffer with [slice]. The same for the declarations of a schema. *)
Fixpoint view_only (t : IdlType) : bool :=
  match t with
  | TString | TPublicKey => false
  | TVec elem | TOption elem | TArray elem _ => view_only elem
  | _ => true
  end.

Definition view_only_elem (x : FlatElem) : bool :=
  match x with
  | ENamed f => view_only (ftype f)
  | EType t => view_only t
  end.

Definition view_only_variant (v : IdlEnumVariant) : bool :=
  match vfields v with
  | None => true
  | Some (FlatArray elems) => forallb view_only_elem elems
  | Some (KindStruct fields) => forallb (fun f => view_only (ftype f)) fields
  | Some (KindTuple tys) => forallb view_only tys
  end.

Definition view_only_def (d : TypeDef) : bool :=
  match d with
  | DefStruct fields => forallb (fun f => view_only (ftype f)) fields
  | DefEnum variants => forallb view_only_variant variants
  end.

Definition view_only_idl (idl : Idl) : bool :=
  forallb (fun e => view_only_def (ty_type e)) (types idl).

(** [dec] keeps the cursor inside a buffer of [len] bytes. *)
Definition within (len : N) (dec : N -> IdlType -> Res (Value * N)) : Prop :=
  forall off t v n, view_only t = true -> off <= len -> dec off t = Ok (v, n) -> n <= len.

(** The width in bytes of the types of fixed width. *)
Definition fixed_width (t : IdlType) : option N :=
  match t with
  | TU8 | TI8 | TBool => Some 1
  | TU16 | TI16 => Some 2
  | TU32 | TI32 => Some 4
  | TU64 | TI64 => Some 8
  | _ => None
  end.

(** The range of the integer types that decode to a number, and the
    unsigned type of the same width as a signed one. *)
Definition int_range (t : IdlType) : option (Z * Z) :=
  match t with
  | TU8 => Some (0, 2 ^ 8)
  | TI8 => Some (- 2 ^ 7, 2 ^ 7)
  | TU16 => Some (0, 2 ^ 16)
  | TI16 => Some (- 2 ^ 15, 2 ^ 15)
  | TU32 => Some (0, 2 ^ 32)
  | TI32 => Some (- 2 ^ 31, 2 ^ 31)
  | _ => None
  end%Z.

Definition unsigned_of (t : IdlType) : option IdlType :=
  match t with
  | TI8 => Some TU8
  | TI16 => Some TU16
  | TI32 => Some TU32
  | _ => None
  end.

(** The calls nested inside one another to decode a type, references
    to declared types apart, and the types a declaration decodes. *)
Fixpoint depth (t : IdlType) : nat :=
  match t with
  | TVec elem | TOption elem | TArray elem _ => S (depth elem)
  | TBytes => 2
  | _ => 1
  end.

Definition elem_type (x : FlatElem) : IdlType :=
  match x with
  | ENamed f => ftype f
  | EType t => t
  end.

Definition variant_types (v : IdlEnumVariant) : list IdlType :=
  match vfields v with
  | None => []
  | Some (FlatArray elems) => map elem_type elems
  | Some (KindStruct fields) => map ftype fields
  | Some (KindTuple tys) => tys
  end.

Definition def_types (d : TypeDef) : list IdlType :=
  match d with
  | DefStruct fields => map ftype fields
  | DefEnum variants => flat_map variant_types variants
  end.

(** A schema without cycles: every declared name has a rank, and a
    declaration refers only to names of lower rank than its own. [D]
    bounds the depth of the types in the declarations. *)
Fixpoint refs_below (rank : string -> nat) (r : nat) (t : IdlType) : bool :=
  match t with
  | TDefined name => (rank name <? r)%nat
  | TVec elem | TOption elem | TArray elem _ => refs_below rank r elem
  | _ => true
  end.

Definition ranked (rank : string -> nat) (D : nat) (idl : Idl) : bool :=
  forallb (fun e =>
             forallb (fun t => refs_below rank (rank (ty_name e)) t
                               && (depth t <=? D)%nat)
                     (def_types (ty_type e)))
          (types idl).

(** The lowercase hexadecimal digit of a number below 16, and a
    hexadecimal digit put in lowercase. *)
Definition hex_char (n : N) : ascii :=
  nth (N.to_nat n) (list_ascii_of_string "0123456789abcdef") "0"%char.

Definition lower_hex (c : ascii) : ascii :=
  let n := N_of_ascii c in
  if (65 <=? n) && (n <=? 70) then ascii_of_N (n + 32) else c.

Definition is_lower_hex (c : ascii) : bool :=
  let n := N_of_ascii c in
  ((48 <=? n) && (n <=? 57)) || ((97 <=? n) && (n <=? 102)).

(** No pattern starts with the byte [b]. *)
Definition no_pattern_starts_with (patterns : list (list byte)) (b : byte) : bool :=
  forallb (fun p => match p with
                    | [] => false
                    | x :: _ => negb (Byte.eqb x b)
                    end) patterns.

(** An input that [onDerive] does not skip. *)
Definition not_blank (raw : string) : bool := negb (String.eqb (String_trim raw) "").

(** [dec'] gives what [dec] gives whenever [dec] returns a cursor of at
    most [len]. *)
Definition carries_over (len : N) (dec dec' : N -> IdlType -> Res (Value * N)) : Prop :=
  forall off t v n, dec off t = Ok (v, n) -> n <= len -> dec' off t = Ok (v, n).

(** * Properties *)

(** ** Outcomes *)

Lemma bind_Ok {A B : Type} (c : Res A) (k : A -> Res B) (b : B) :
  bind c k = Ok b -> exists a, c = Ok a /\ k a = Ok b.
Proof. destruct c; simpl; intros H; try discriminate. eauto. Qed.

Lemma bind_not_OutOfFuel {A B : Type} (c : Res A) (k : A -> Res B) :
  bind c k <> OutOfFuel -> c <> OutOfFuel.
Proof. destruct c; simpl; congruence. Qed.

(** ** More fuel never changes an outcome *)

Ltac step_dec Hext :=
  match goal with
  | H : bind (?d ?off ?t) _ <> OutOfFuel |- _ =>
      let E := fresh "E" in
      rewrite (Hext off t (bind_not_OutOfFuel _ _ H));
      destruct (d off t) as [[? ?]| |] eqn:E; simpl in H |- *;
      [ | reflexivity | congruence ]
  end.

Section Extends.
Variables dec dec' : N -> IdlType -> Res (Value * N).
Hypothesis Hext : extends dec dec'.

Lemma read_elems_extends count elem out off :
  read_elems dec count elem out off <> OutOfFuel ->
  read_elems dec' count elem out off = read_elems dec count elem out off.
Proof.
  revert out off; induction count as [|count IH]; simpl; intros out off H.
  - reflexivity.
  - step_dec Hext. now apply IH.
Qed.

Lemma decode_fields_extends fields obj off :
  decode_fields dec fields obj off <> OutOfFuel ->
  decode_fields dec' fields obj off = decode_fields dec fields obj off.
Proof.
  revert obj off; induction fields as [|f fields IH]; simpl; intros obj off H.
  - reflexivity.
  - step_dec Hext. now apply IH.
Qed.

Lemma decode_types_extends tys arr off :
  decode_types dec tys arr off <> OutOfFuel ->
  decode_types dec' tys arr off = decode_types dec tys arr off.
Proof.
  revert arr off; induction tys as [|t tys IH]; simpl; intros arr off H.
  - reflexivity.
  - step_dec Hext. now apply IH.
Qed.

Lemma decode_flat_named_extends elems obj off :
  decode_flat_named dec elems obj off <> OutOfFuel ->
  decode_flat_named dec' elems obj off = decode_flat_named dec elems obj off.
Proof.
  revert obj off; induction elems as [|[f|t] elems IH]; simpl; intros obj off H.
  - reflexivity.
  - step_dec Hext. now apply IH.
  - reflexivity.
Qed.

Lemma decode_flat_types_extends elems arr off :
  decode_flat_types dec elems arr off <> OutOfFuel ->
  decode_flat_types dec' elems arr off = decode_flat_types dec elems arr off.
Proof.
  revert arr off; induction elems as [|[f|t] elems IH]; simpl; intros arr off H.
  - reflexivity.
  - now apply IH.
  - step_dec Hext. now apply IH.
Qed.

Lemma readVec_extends bytes offset elem :
  readVec dec bytes offset elem <> OutOfFuel ->
  readVec dec' bytes offset elem = readVec dec bytes offset elem.
Proof.
  unfold readVec. destruct (readU32 bytes offset) as [[len no]| |]; simpl; auto.
  apply read_elems_extends.
Qed.

Lemma decodeEnum_extends bytes offset variants :
  decodeEnum dec bytes offset variants <> OutOfFuel ->
  decodeEnum dec' bytes offset variants = decodeEnum dec bytes offset variants.
Proof.
  unfold decodeEnum.
  destruct (readU8 bytes offset) as [[tag no]| |]; simpl; auto.
  destruct (nth_error variants (Z.to_nat tag)) as [v|]; auto.
  destruct (vfields v) as [[elems|fields|tys]|]; auto.
  - destruct (looksLikeNamedFields elems); intros H;
      apply bind_not_OutOfFuel in H.
    + now rewrite decode_flat_named_extends.
    + now rewrite decode_flat_types_extends.
  - intros H; apply bind_not_OutOfFuel in H.
    now rewrite decode_fields_extends.
  - intros H; apply bind_not_OutOfFuel in H.
    now rewrite decode_types_extends.
Qed.
End Extends.

Lemma decodeType_S_extends bytes idl fuel :
  extends (decodeType fuel bytes idl) (decodeType (S fuel) bytes idl).
Proof.
  induction fuel as [|fuel IH]; intros off t H.
  - now elim H.
  - remember (S fuel) as fuel1 eqn:Efuel.
    rewrite Efuel in H at 1. rewrite Efuel at 2.
    destruct t; simpl in H |- *; try reflexivity.
    + apply bind_not_OutOfFuel in H. now rewrite (readVec_extends _ _ IH).
    + apply bind_not_OutOfFuel in H. now rewrite (readVec_extends _ _ IH).
    + destruct (readU8 bytes off) as [[has no]| |]; simpl in H |- *; auto.
      destruct (has =? 0)%Z; auto.
    + apply bind_not_OutOfFuel in H. unfold readArray in *.
      now rewrite (read_elems_extends _ _ IH).
    + destruct (resolveDefined idl name) as [[fields|variants]|]; auto.
      * apply bind_not_OutOfFuel in H. unfold decodeStruct in *.
        now rewrite (decode_fields_extends _ _ IH).
      * now apply decodeEnum_extends.
Qed.

(** Fuel monotonicity: an outcome reached with some fuel is the
    outcome with any larger fuel. *)
Lemma decodeType_fuel_mono bytes idl fuel fuel' off t :
  (fuel <= fuel')%nat ->
  decodeType fuel bytes idl off t <> OutOfFuel ->
  decodeType fuel' bytes idl off t = decodeType fuel bytes idl off t.
Proof.
  induction 1 as [|fuel' Hle IH]; intros H.
  - reflexivity.
  - rewrite <- (IH H). apply decodeType_S_extends. now rewrite (IH H).
Qed.

(** ** The discriminator *)

Lemma list_byte_of_string_app (a b : string) :
  list_byte_of_string (a ++ b) = list_byte_of_string a ++ list_byte_of_string b.
Proof.
  unfold list_byte_of_string.
  induction a as [|c a IH]; simpl; [reflexivity | now rewrite IH].
Qed.

Lemma skipn_repeat {A : Type} (x : A) (n m : nat) :
  skipn n (repeat x (n + m)) = repeat x m.
Proof. induction n as [|n IH]; simpl; auto. Qed.

(** Writing [p] at 0 and [n] right after it fills a fresh array of
    their joint length with [p ++ n]. *)
Lemma Uint8Array_set_twice (p n : list byte) :
  (data <- Uint8Array_set (Uint8Array_new (List.length p + List.length n)) p 0 ;;
   Uint8Array_set data n (List.length p)) = Ok (p ++ n).
Proof.
  assert (E1 : Uint8Array_set (Uint8Array_new (List.length p + List.length n)) p 0
               = Ok (p ++ repeat x00 (List.length n))).
  { unfold Uint8Array_set, Uint8Array_new. rewrite repeat_length.
    replace (0 + List.length p <=? List.length p + List.length n)%nat with true
      by (symmetry; apply Nat.leb_le; lia).
    simpl. now rewrite skipn_repeat. }
  rewrite E1. simpl.
  unfold Uint8Array_set.
  rewrite length_app, repeat_length, Nat.leb_refl.
  rewrite firstn_app, firstn_all, Nat.sub_diag. simpl. rewrite app_nil_r.
  rewrite skipn_all2 by (rewrite length_app, repeat_length; lia).
  now rewrite app_nil_r.
Qed.

(** The two [set] calls leave exactly the bytes of ["account:"]
    followed by those of the name to be hashed. *)
Lemma anchorDiscriminatorForAccount_digest (name : string) :
  anchorDiscriminatorForAccount name
  = Ok (firstn 8 (sha256 (TextEncoder_encode "account:" ++ TextEncoder_encode name))).
Proof.
  unfold anchorDiscriminatorForAccount.
  pose proof (Uint8Array_set_twice (TextEncoder_encode "account:")
                                   (TextEncoder_encode name)) as H.
  destruct (Uint8Array_set _ (TextEncoder_encode "account:") 0)
    as [data| |]; simpl in H |- *; try discriminate.
  rewrite H. reflexivity.
Qed.

Lemma anchorDiscriminatorForAccount_Ok (name : string) :
  anchorDiscriminatorForAccount name = Ok (discriminatorOf name).
Proof.
  rewrite anchorDiscriminatorForAccount_digest.
  unfold discriminatorOf, TextEncoder_encode.
  now rewrite list_byte_of_string_app.
Qed.

Lemma discriminatorOf_length (name : string) :
  List.length (discriminatorOf name) = 8%nat.
Proof.
  unfold discriminatorOf. rewrite length_firstn, sha256_length. reflexivity.
Qed.

(** C3. The discriminator of an account type is the first 8 bytes of
    the SHA-256 digest of the UTF-8 bytes of ["account:"] followed
    directly by those of the name, with nothing between or before them.
    Computing it never fails, and as a function of the name alone it
    gives the same 8 bytes on every call. *)
Theorem discriminator_is_digest_prefix (name : string) :
  anchorDiscriminatorForAccount name
  = Ok (firstn 8 (sha256 (TextEncoder_encode "account:" ++ TextEncoder_encode name)))
  /\ anchorDiscriminatorForAccount name = Ok (discriminatorOf name)
  /\ List.length (discriminatorOf name) = 8%nat.
Proof.
  split; [apply anchorDiscriminatorForAccount_digest|].
  split; [apply anchorDiscriminatorForAccount_Ok | apply discriminatorOf_length].
Qed.

(** ** The account resolver *)

Lemma bytes_eqb_eq (a b : list byte) : bytes_eqb a b = true <-> a = b.
Proof.
  revert b; induction a as [|x a IH]; intros [|y b]; simpl;
    try (split; [discriminate | congruence]); [tauto|].
  rewrite andb_true_iff, IH. split.
  - intros [Hxy ->]. now rewrite (Byte.byte_dec_bl _ _ Hxy).
  - intros [= -> ->]. split; [now apply Byte.byte_dec_lb | reflexivity].
Qed.

Lemma bytes_eqb_sym (a b : list byte) : bytes_eqb a b = bytes_eqb b a.
Proof.
  destruct (bytes_eqb a b) eqn:E1, (bytes_eqb b a) eqn:E2; auto.
  - apply bytes_eqb_eq in E1. subst. rewrite (proj2 (bytes_eqb_eq b b) eq_refl) in E2.
    discriminate.
  - apply bytes_eqb_eq in E2. subst. rewrite (proj2 (bytes_eqb_eq a a) eq_refl) in E1.
    discriminate.
Qed.

(** [every] compares [d] with as many elements of [other], from index
    [i] on, as [d] has; a missing element fails the comparison. *)
Lemma every_eq_from_spec (d other : list byte) (i : nat) :
  every_eq_from i d other = bytes_eqb d (firstn (List.length d) (skipn i other)).
Proof.
  revert i; induction d as [|v d IH]; intros i; simpl; [reflexivity|].
  rewrite IH.
  assert (Hskip : skipn (S i) other = tl (skipn i other)).
  { clear. revert other; induction i as [|i IH]; intros [|b other]; simpl; auto.
    rewrite <- IH. now destruct other. }
  assert (Hnth : nth_error other i = hd_error (skipn i other)).
  { clear. revert other; induction i as [|i IH]; intros [|b other]; simpl; auto. }
  rewrite Hskip, Hnth.
  destruct (skipn i other) as [|b rest]; simpl; [reflexivity|].
  reflexivity.
Qed.

(** The comparison made by the resolver holds exactly when the
    buffer starts with the 8 bytes of the discriminator. *)
Lemma every_eq_discriminator (bytes : list byte) (acc : IdlAccount) :
  every_eq (discriminatorOf (acc_name acc)) bytes = tag_matches bytes acc
  /\ every_eq (discriminatorOf (acc_name acc)) (Uint8Array_slice bytes 0 8)
     = tag_matches bytes acc.
Proof.
  unfold every_eq, tag_matches. rewrite !every_eq_from_spec.
  rewrite discriminatorOf_length. simpl skipn.
  change (Uint8Array_slice bytes 0 8) with (firstn 8 bytes).
  rewrite firstn_firstn, Nat.min_id.
  split; apply bytes_eqb_sym.
Qed.

Lemma tag_matches_length (bytes : list byte) (acc : IdlAccount) :
  tag_matches bytes acc = true -> (8 <= List.length bytes)%nat.
Proof.
  unfold tag_matches. rewrite bytes_eqb_eq. intros H.
  pose proof (discriminatorOf_length (acc_name acc)) as L.
  rewrite <- H, length_firstn in L. lia.
Qed.

(** The scan of [parseAccountWithIdl] stops at the first account that
    both carries the tag of the buffer and has a field list. *)
Lemma parseAccountWithIdl_from_find fuel bytes idl accs :
  parseAccountWithIdl_from fuel bytes idl accs =
  match find (fun acc => tag_matches bytes acc && has_fields idl acc) accs with
  | None => Ok None
  | Some acc =>
      match getAccountStructFields idl (acc_name acc) with
      | Some fields => decodeAccount fuel bytes idl 8 (acc_name acc) fields
      | None => Ok None
      end
  end.
Proof.
  induction accs as [|acc rest IH]; simpl; [reflexivity|].
  rewrite (anchorDiscriminatorForAccount_Ok (acc_name acc)). simpl.
  rewrite (proj2 (every_eq_discriminator bytes acc)).
  unfold has_fields.
  destruct (tag_matches bytes acc); simpl; [|exact IH].
  destruct (getAccountStructFields idl (acc_name acc)) as [fields|] eqn:Ef;
    [|exact IH].
  now rewrite Ef.
Qed.

Lemma parseAccountWithIdl_find fuel bytes idl :
  parseAccountWithIdl fuel bytes idl =
  match find (fun acc => tag_matches bytes acc && has_fields idl acc) (accounts idl) with
  | None => Ok None
  | Some acc =>
      match getAccountStructFields idl (acc_name acc) with
      | Some fields => decodeAccount fuel bytes idl 8 (acc_name acc) fields
      | None => Ok None
      end
  end.
Proof.
  unfold parseAccountWithIdl.
  destruct (accounts idl) as [|acc rest] eqn:E; [reflexivity|].
  apply parseAccountWithIdl_from_find.
Qed.

Lemma decodeAccount_not_None fuel bytes idl start name fields :
  decodeAccount fuel bytes idl start name fields <> Ok None.
Proof.
  unfold decodeAccount.
  destruct (decodeStruct _ _ _) as [[obj n]| |]; simpl; discriminate.
Qed.

(** C1. Auto-detection takes the declared account types in schema
    order and compares the discriminator of each with the first 8
    bytes of the buffer. With no match the answer is NoMatch, an
    ordinary result. At the first match it drops those 8 bytes and
    decodes the rest against the field list of that type. *)
Theorem auto_detect_first_match fuel bytes idl :
  match find (tag_matches bytes) (accounts idl) with
  | None => parseAccountWithIdl fuel bytes idl = Ok None
  | Some acc =>
      forall fields,
        getAccountStructFields idl (acc_name acc) = Some fields ->
        parseAccountWithIdl fuel bytes idl
        = decodeAccount fuel bytes idl 8 (acc_name acc) fields
  end.
Proof.
  rewrite parseAccountWithIdl_find.
  induction (accounts idl) as [|a rest IH]; simpl; [reflexivity|].
  unfold has_fields at 1.
  destruct (tag_matches bytes a) eqn:Ea; simpl.
  - intros fields Hf. rewrite Hf. simpl. now rewrite Hf.
  - exact IH.
Qed.

(** C10. In auto-detection an account type without a locatable field
    list is passed over, also when its discriminator matches, and the
    scan goes on with the account types after it. NoMatch is the
    answer exactly when no account type both matches and has a field
    list. *)
Theorem auto_detect_skips_unlocatable fuel bytes idl :
  (forall acc rest,
      tag_matches bytes acc = true ->
      getAccountStructFields idl (acc_name acc) = None ->
      parseAccountWithIdl_from fuel bytes idl (acc :: rest)
      = parseAccountWithIdl_from fuel bytes idl rest)
  /\ (parseAccountWithIdl fuel bytes idl = Ok None <->
      forall acc, In acc (accounts idl) ->
                  tag_matches bytes acc = true ->
                  getAccountStructFields idl (acc_name acc) = None).
Proof.
  split.
  - intros acc rest Hm Hf.
    rewrite !parseAccountWithIdl_from_find. simpl.
    unfold has_fields at 1. now rewrite Hm, Hf.
  - rewrite parseAccountWithIdl_find.
    induction (accounts idl) as [|a rest IH]; simpl.
    + split; [intros _ acc [] | reflexivity].
    + unfold has_fields at 1.
      destruct (tag_matches bytes a) eqn:Ea; simpl.
      * destruct (getAccountStructFields idl (acc_name a)) as [fields|] eqn:Ef;
          simpl; rewrite ?Ef.
        -- split.
           ++ intros H. now apply decodeAccount_not_None in H.
           ++ intros H. specialize (H a (or_introl eq_refl) Ea). congruence.
        -- rewrite IH. split.
           ++ intros H acc [<-|Hin]; auto.
           ++ intros H acc Hin. apply H. now right.
      * rewrite IH. split.
        -- intros H acc [<-|Hin] Hm; [congruence | auto].
        -- intros H acc Hin. apply H. now right.
Qed.

(** Explicit selection of a declared account type: the 8 bytes of
    the tag are dropped when the buffer has them and they match, and
    nothing is dropped otherwise. *)
Lemma explicit_mode_decodes fuel bytes idl sel acc :
  sel <> ""%string ->
  find (fun a => String.eqb (acc_name a) sel) (accounts idl) = Some acc ->
  parseAccountAutoOrSelected fuel bytes idl (Some sel) =
  match getAccountStructFields idl (acc_name acc) with
  | None => Ok None
  | Some fields =>
      decodeAccount fuel bytes idl
        (if (8 <=? List.length bytes)%nat && tag_matches bytes acc then 8 else 0)
        (acc_name acc) fields
  end.
Proof.
  intros Hsel Hfind. unfold parseAccountAutoOrSelected.
  destruct sel as [|c sel]; [congruence|]. rewrite Hfind.
  replace (8 <=? N.of_nat (List.length bytes)) with (8 <=? List.length bytes)%nat.
  2:{ destruct (Nat.leb_spec 8 (List.length bytes));
      symmetry; [apply N.leb_le | apply N.leb_gt]; lia. }
  destruct (8 <=? List.length bytes)%nat; simpl.
  - rewrite (anchorDiscriminatorForAccount_Ok (acc_name acc)). simpl.
    rewrite (proj1 (every_eq_discriminator bytes acc)).
    destruct (tag_matches bytes acc);
      destruct (getAccountStructFields idl (acc_name acc)); reflexivity.
  - destruct (getAccountStructFields idl (acc_name acc)); reflexivity.
Qed.

(** With fewer than 8 bytes no discriminator is computed: the buffer
    is decoded from its start, whatever the digest function. *)
Lemma explicit_mode_short_buffer fuel bytes idl sel acc :
  sel <> ""%string ->
  find (fun a => String.eqb (acc_name a) sel) (accounts idl) = Some acc ->
  (List.length bytes < 8)%nat ->
  parseAccountAutoOrSelected fuel bytes idl (Some sel) =
  match getAccountStructFields idl (acc_name acc) with
  | None => Ok None
  | Some fields => decodeAccount fuel bytes idl 0 (acc_name acc) fields
  end.
Proof.
  intros Hsel Hfind Hlen. unfold parseAccountAutoOrSelected.
  destruct sel as [|c sel]; [congruence|]. rewrite Hfind.
  replace (8 <=? N.of_nat (List.length bytes)) with false
    by (symmetry; apply N.leb_gt; lia).
  cbn [bind].
  destruct (getAccountStructFields idl (acc_name acc)); reflexivity.
Qed.

(** ** Reading through the view *)

Lemma skipn_nth_error {A : Type} (l : list A) (k : nat) (x : A) :
  nth_error l k = Some x -> skipn k l = x :: skipn (S k) l.
Proof.
  revert l; induction k as [|k IH]; intros [|y l]; simpl; try discriminate.
  - now intros [= ->].
  - intros H. now rewrite (IH _ H).
Qed.

Lemma view_get_chunk (bytes chunk : list byte) (offset width : N) :
  firstn (N.to_nat width) (skipn (N.to_nat offset) bytes) = chunk ->
  List.length chunk = N.to_nat width ->
  0 < width ->
  view_get bytes offset width = Ok (le_value chunk).
Proof.
  intros Hc Hl Hw. unfold view_get.
  rewrite <- Hc, length_firstn, length_skipn in Hl.
  replace (offset + width <=? N.of_nat (List.length bytes)) with true
    by (symmetry; apply N.leb_le; lia).
  now rewrite Hc.
Qed.

Lemma view_get_underrun (bytes : list byte) (offset width : N) :
  N.of_nat (List.length bytes) < offset + width ->
  view_get bytes offset width = Throw RangeError.
Proof.
  intros H. unfold view_get.
  now replace (offset + width <=? N.of_nat (List.length bytes)) with false
    by (symmetry; apply N.leb_gt; lia).
Qed.

Lemma view_get_Ok (bytes : list byte) (offset width n : N) :
  view_get bytes offset width = Ok n ->
  offset + width <= N.of_nat (List.length bytes).
Proof.
  unfold view_get.
  destruct (N.leb_spec (offset + width) (N.of_nat (List.length bytes)));
    [auto | discriminate].
Qed.

Lemma readU8_byte (bytes : list byte) (offset : N) (b : byte) :
  nth_error bytes (N.to_nat offset) = Some b ->
  readU8 bytes offset = Ok (Z.of_N (Byte.to_N b), offset + 1).
Proof.
  intros H. unfold readU8, getUint.
  rewrite (view_get_chunk bytes [b] offset (8 / 8)).
  - cbn [bind le_value]. do 2 f_equal. lia.
  - rewrite (skipn_nth_error _ _ _ H). reflexivity.
  - reflexivity.
  - reflexivity.
Qed.

(** ** 64-bit integers *)

Lemma decimal_value_toString (z : Z) : decimal_value (bigint_toString z) = Some z.
Proof.
  unfold decimal_value, bigint_toString.
  rewrite NilZero.isi.
  - simpl. now rewrite DecimalZ.of_to.
  - destruct z; simpl; try discriminate.
    intros [= H]. now apply (Unsigned.to_uint_nonnil p).
  - destruct z; simpl; try discriminate.
    intros [= H]. now apply (Unsigned.to_uint_nonnil p).
Qed.

Lemma le_value_bound (bs : list byte) : le_value bs < 256 ^ N.of_nat (List.length bs).
Proof.
  induction bs as [|b bs IH].
  - simpl. lia.
  - cbn [le_value List.length]. rewrite Nat2N.inj_succ, N.pow_succ_r'.
    pose proof (Byte.to_N_bounded b). lia.
Qed.

Lemma tag_matches_prefix (rest : list byte) (acc : IdlAccount) :
  tag_matches (discriminatorOf (acc_name acc) ++ rest) acc = true
  /\ skipn 8 (discriminatorOf (acc_name acc) ++ rest) = rest.
Proof.
  pose proof (discriminatorOf_length (acc_name acc)) as L.
  unfold tag_matches. rewrite bytes_eqb_eq.
  generalize dependent (discriminatorOf (acc_name acc)). intros d L.
  rewrite <- L. split.
  - rewrite firstn_app, firstn_all, Nat.sub_diag. simpl. apply app_nil_r.
  - rewrite skipn_app, skipn_all, Nat.sub_diag. reflexivity.
Qed.

(** C8. A [u64] or [i64] field is read from 8 little-endian bytes and
    comes out as the decimal numeral of exactly that number (unsigned,
    or two's complement), from which the number can be read back; the
    cursor moves by 8. Scenario A: the account type Counter, a struct
    with the single field [count: u64], decoded by auto-detection from
    its discriminator followed by the 64-bit value 7, gives
    [{accountName: "Counter", data: {count: "7"}}]. *)
Theorem u64_i64_decimal_strings fuel bytes idl offset b0 b1 b2 b3 b4 b5 b6 b7 :
  firstn 8 (skipn (N.to_nat offset) bytes) = [b0; b1; b2; b3; b4; b5; b6; b7] ->
  let n := Byte.to_N b0 + 256 * Byte.to_N b1 + 256 ^ 2 * Byte.to_N b2
           + 256 ^ 3 * Byte.to_N b3 + 256 ^ 4 * Byte.to_N b4
           + 256 ^ 5 * Byte.to_N b5 + 256 ^ 6 * Byte.to_N b6
           + 256 ^ 7 * Byte.to_N b7 in
  let u := Z.of_N n in
  let i := if n <? 2 ^ 63 then Z.of_N n else (Z.of_N n - 2 ^ 64)%Z in
  decodeType (S fuel) bytes idl offset TU64 = Ok (VStr (bigint_toString u), offset + 8)
  /\ decodeType (S fuel) bytes idl offset TI64 = Ok (VStr (bigint_toString i), offset + 8)
  /\ decimal_value (bigint_toString u) = Some u
  /\ decimal_value (bigint_toString i) = Some i
  /\ (0 <= u < 2 ^ 64)%Z /\ (- 2 ^ 63 <= i < 2 ^ 63)%Z
  /\ parseAccountAutoOrSelected (S fuel)
       (discriminatorOf "Counter" ++ [x07; x00; x00; x00; x00; x00; x00; x00])
       scenarioA_idl None
     = Ok (Some ("Counter"%string, VObj [("count"%string, VStr "7")])).
Proof.
  intros Hchunk n u i.
  assert (Hget : view_get bytes offset (64 / 8) = Ok n).
  { rewrite (view_get_chunk bytes [b0; b1; b2; b3; b4; b5; b6; b7] offset (64 / 8))
      by (exact Hchunk || reflexivity).
    f_equal. subst n. cbn [le_value]. lia. }
  assert (Hn : n < 2 ^ 64).
  { subst n.
    pose proof (Byte.to_N_bounded b0). pose proof (Byte.to_N_bounded b1).
    pose proof (Byte.to_N_bounded b2). pose proof (Byte.to_N_bounded b3).
    pose proof (Byte.to_N_bounded b4). pose proof (Byte.to_N_bounded b5).
    pose proof (Byte.to_N_bounded b6). pose proof (Byte.to_N_bounded b7).
    lia. }
  repeat split.
  - cbn [decodeType]. unfold readU64, getUint. now rewrite Hget.
  - cbn [decodeType]. unfold readI64, getInt. now rewrite Hget.
  - apply decimal_value_toString.
  - apply decimal_value_toString.
  - lia.
  - lia.
  - subst i. destruct (N.ltb_spec n (2 ^ 63)); lia.
  - subst i. destruct (N.ltb_spec n (2 ^ 63)); lia.
  - cbn [parseAccountAutoOrSelected]. unfold parseAccountWithIdl.
    cbn [accounts scenarioA_idl parseAccountWithIdl_from].
    set (acc := mkAccount "Counter" (Some (AccStruct [mkField "count" TU64]))).
    change "Counter"%string with (acc_name acc) at 1 2.
    rewrite (anchorDiscriminatorForAccount_Ok (acc_name acc)).
    cbn [bind].
    rewrite (proj2 (every_eq_discriminator _ acc)).
    rewrite (proj1 (tag_matches_prefix _ acc)).
    change (Uint8Array_slice_from ?l 8) with (skipn 8 l).
    rewrite (proj2 (tag_matches_prefix _ acc)).
    reflexivity.
Qed.

(** ** Payloads of enum variants *)

Section Sequences.
Variable dec : N -> IdlType -> Res (Value * N).

(** The loop of a tuple payload pushes the values decoded in
    sequence. *)
Lemma decode_types_seq tys vs off off' :
  decodes_seq dec off tys vs off' ->
  forall arr, decode_types dec tys arr off = Ok (arr ++ vs, off').
Proof.
  induction 1 as [off|off t v n tys vs off' Hd Hs IH]; intros arr; simpl.
  - now rewrite app_nil_r.
  - rewrite Hd. simpl. rewrite IH, <- app_assoc. reflexivity.
Qed.

Lemma decode_types_Ok tys : forall arr off out off',
  decode_types dec tys arr off = Ok (out, off') ->
  exists vs, out = arr ++ vs /\ decodes_seq dec off tys vs off'.
Proof.
  induction tys as [|t tys IH]; simpl; intros arr off out off' H.
  - injection H as <- <-. exists []. split; [now rewrite app_nil_r | constructor].
  - apply bind_Ok in H. destruct H as [[v n] [Hd H]].
    destruct (IH _ _ _ _ H) as [vs [-> Hs]].
    exists (v :: vs). split; [now rewrite <- app_assoc | econstructor; eauto].
Qed.

(** The loop of a struct payload assigns the values decoded in
    sequence to the field names, in field order. *)
Lemma decode_fields_seq fields vs off off' :
  decodes_seq dec off (map ftype fields) vs off' ->
  forall obj,
    decode_fields dec fields obj off
    = Ok (fold_left (fun o kv => obj_set o (fst kv) (snd kv))
                    (combine (map fname fields) vs) obj, off').
Proof.
  revert vs off; induction fields as [|f fields IH]; intros vs off Hs obj;
    inversion Hs; subst; simpl.
  - reflexivity.
  - match goal with H : dec _ _ = Ok _ |- _ => rewrite H end. simpl.
    now apply IH.
Qed.

Lemma decode_flat_types_map tys arr off :
  decode_flat_types dec (map EType tys) arr off = decode_types dec tys arr off.
Proof.
  revert arr off; induction tys as [|t tys IH]; intros arr off; simpl; auto.
  destruct (dec off t) as [[v n]| |]; simpl; auto.
Qed.

Lemma decode_flat_named_map fields obj off :
  decode_flat_named dec (map ENamed fields) obj off = decode_fields dec fields obj off.
Proof.
  revert obj off; induction fields as [|f fields IH]; intros obj off; simpl; auto.
  destruct (dec off (ftype f)) as [[v n]| |]; simpl; auto.
Qed.
End Sequences.

Lemma all_types_map elems tys : all_types elems = Some tys -> elems = map EType tys.
Proof.
  revert tys; induction elems as [|[f|t] elems IH]; simpl; intros tys H.
  - now injection H as <-.
  - discriminate.
  - destruct (all_types elems) as [tys'|]; simpl in H; [|discriminate].
    injection H as <-. simpl. now rewrite (IH tys').
Qed.

Lemma all_named_map elems fields : all_named elems = Some fields -> elems = map ENamed fields.
Proof.
  revert fields; induction elems as [|[f|t] elems IH]; simpl; intros fields H.
  - now injection H as <-.
  - destruct (all_named elems) as [fields'|]; simpl in H; [|discriminate].
    injection H as <-. simpl. now rewrite (IH fields').
  - discriminate.
Qed.

(** The test of line 171 holds exactly for an array that starts with a
    named field. *)
Lemma looksLikeNamedFields_spec (elems : list FlatElem) :
  looksLikeNamedFields elems = true <-> exists f rest, elems = ENamed f :: rest.
Proof.
  split.
  - destruct elems as [|[f|t] rest]; simpl; try discriminate; eauto.
    destruct t; simpl; discriminate.
  - intros [f [rest ->]]. reflexivity.
Qed.

Lemma looksLikeNamedFields_types (tys : list IdlType) :
  looksLikeNamedFields (map EType tys) = false.
Proof.
  destruct (looksLikeNamedFields (map EType tys)) eqn:E; auto.
  apply looksLikeNamedFields_spec in E. destruct E as [f [rest E]].
  destruct tys; discriminate.
Qed.

(** C7. A [defined] type that resolves to an enum reads a 1-byte tag
    and takes the variant at that 0-based index. A tag at or beyond the
    number of variants gives the unknown-variant value with the raw tag
    and consumes the tag only. Otherwise the payload follows the shape
    of the variant: none for a unit variant, the positional values for a
    tuple, the named fields for a struct, in a value with the tag, the
    variant name and the payload. *)
Theorem enum_decoding fuel bytes idl offset name variants b :
  resolveDefined idl name = Some (DefEnum variants) ->
  nth_error bytes (N.to_nat offset) = Some b ->
  let tag := Z.of_N (Byte.to_N b) in
  let r := decodeType (S fuel) bytes idl offset (TDefined name) in
  let dec := decodeType fuel bytes idl in
  ((Z.of_nat (List.length variants) <= tag)%Z ->
   r = Ok (VObj [("tag", VNum tag); ("name", VStr "Unknown")]%string, offset + 1))
  /\ (forall v, nth_error variants (Z.to_nat tag) = Some v ->
        match shape_of v with
        | Some ShapeUnit =>
            r = Ok (VObj [("tag", VNum tag); ("name", VStr (vname v))]%string,
                    offset + 1)
        | Some (ShapeTuple tys) =>
            forall vs off', decodes_seq dec (offset + 1) tys vs off' ->
              r = Ok (VObj [("tag", VNum tag); ("name", VStr (vname v));
                            ("value", VArr vs)]%string, off')
        | Some (ShapeStruct fields) =>
            forall vs off', decodes_seq dec (offset + 1) (map ftype fields) vs off' ->
              r = Ok (VObj [("tag", VNum tag); ("name", VStr (vname v));
                            ("value", VObj (object_of (map fname fields) vs))]%string,
                      off')
        | None => True
        end).
Proof.
  intros Hres Hb tag r dec. subst r.
  cbn [decodeType]. rewrite Hres. unfold decodeEnum.
  rewrite (readU8_byte _ _ _ Hb). cbn [bind]. fold tag. fold dec. split.
  - intros Hge.
    replace (nth_error variants (Z.to_nat tag)) with (@None IdlEnumVariant)
      by (symmetry; apply nth_error_None; lia).
    reflexivity.
  - intros v Hv. rewrite Hv. unfold shape_of.
    destruct (vfields v) as [[elems|fields|tys]|].
    + destruct (all_types elems) as [tys|] eqn:Et.
      * intros vs off' Hs. apply all_types_map in Et. subst elems.
        rewrite looksLikeNamedFields_types, decode_flat_types_map.
        now rewrite (decode_types_seq _ _ _ _ _ Hs).
      * destruct (all_named elems) as [fields|] eqn:En; simpl; [|exact I].
        intros vs off' Hs. apply all_named_map in En. subst elems.
        destruct fields as [|f fields]; [discriminate|].
        change (looksLikeNamedFields (map ENamed (f :: fields))) with true.
        cbv iota. rewrite decode_flat_named_map.
        now rewrite (decode_fields_seq _ _ _ _ _ Hs).
    + intros vs off' Hs. now rewrite (decode_fields_seq _ _ _ _ _ Hs).
    + intros vs off' Hs. now rewrite (decode_types_seq _ _ _ _ _ Hs).
    + reflexivity.
Qed.


(** ** The cursor *)

Section Advances.
Variable dec : N -> IdlType -> Res (Value * N).
Hypothesis Hadv : advances dec.

Lemma read_elems_advances count elem : forall out off vs n,
  read_elems dec count elem out off = Ok (vs, n) -> off <= n.
Proof.
  induction count as [|count IH]; simpl; intros out off vs n H.
  - injection H as _ <-. lia.
  - apply bind_Ok in H. destruct H as [[v m] [Hd H]].
    apply Hadv in Hd. apply IH in H. lia.
Qed.

Lemma decode_fields_advances fields : forall obj off out n,
  decode_fields dec fields obj off = Ok (out, n) -> off <= n.
Proof.
  induction fields as [|f fields IH]; simpl; intros obj off out n H.
  - injection H as _ <-. lia.
  - apply bind_Ok in H. destruct H as [[v m] [Hd H]].
    apply Hadv in Hd. apply IH in H. lia.
Qed.

Lemma decode_types_advances tys : forall arr off out n,
  decode_types dec tys arr off = Ok (out, n) -> off <= n.
Proof.
  induction tys as [|t tys IH]; simpl; intros arr off out n H.
  - injection H as _ <-. lia.
  - apply bind_Ok in H. destruct H as [[v m] [Hd H]].
    apply Hadv in Hd. apply IH in H. lia.
Qed.

Lemma decode_flat_named_advances elems : forall obj off out n,
  decode_flat_named dec elems obj off = Ok (out, n) -> off <= n.
Proof.
  induction elems as [|[f|t] elems IH]; simpl; intros obj off out n H.
  - injection H as _ <-. lia.
  - apply bind_Ok in H. destruct H as [[v m] [Hd H]].
    apply Hadv in Hd. apply IH in H. lia.
  - discriminate.
Qed.

Lemma decode_flat_types_advances elems : forall arr off out n,
  decode_flat_types dec elems arr off = Ok (out, n) -> off <= n.
Proof.
  induction elems as [|[f|t] elems IH]; simpl; intros arr off out n H.
  - injection H as _ <-. lia.
  - now apply IH in H.
  - apply bind_Ok in H. destruct H as [[v m] [Hd H]].
    apply Hadv in Hd. apply IH in H. lia.
Qed.
End Advances.

Lemma reader_Ok_advances {A : Type} (get : Res A) (offset k : N) (v : A) (n : N) :
  (x <- get ;; Ok (x, offset + k)) = Ok (v, n) -> offset <= n.
Proof.
  intros H. apply bind_Ok in H. destruct H as [x [_ [= _ <-]]]. lia.
Qed.

(** The cursor a decode returns is never before the one it started
    from. *)
Lemma decodeType_advances bytes idl fuel : advances (decodeType fuel bytes idl).
Proof.
  induction fuel as [|fuel IH]; intros off t v n H; [discriminate|].
  destruct t; cbn [decodeType] in H.
  1-8: apply bind_Ok in H; destruct H as [[x m] [E [= _ <-]]];
       now apply reader_Ok_advances in E.
  - apply bind_Ok in H. destruct H as [[x m] [E [= _ <-]]].
    unfold readBool in E. apply bind_Ok in E. destruct E as [[y k] [E [= _ <-]]].
    now apply reader_Ok_advances in E.
  - apply bind_Ok in H. destruct H as [[x m] [E [= _ <-]]].
    unfold readString in E. apply bind_Ok in E. destruct E as [[len no] [E [= _ <-]]].
    apply reader_Ok_advances in E. lia.
  - destruct (PublicKey_toBase58 _); [|discriminate]. injection H as _ <-. lia.
  - apply bind_Ok in H. destruct H as [[arr m] [E [= _ <-]]].
    unfold readVec in E. apply bind_Ok in E. destruct E as [[len no] [E1 E2]].
    apply reader_Ok_advances in E1. apply (read_elems_advances _ IH) in E2. lia.
  - apply bind_Ok in H. destruct H as [[arr m] [E [= _ <-]]].
    unfold readVec in E. apply bind_Ok in E. destruct E as [[len no] [E1 E2]].
    apply reader_Ok_advances in E1. apply (read_elems_advances _ IH) in E2. lia.
  - apply bind_Ok in H. destruct H as [[has no] [E H]].
    apply reader_Ok_advances in E.
    destruct (has =? 0)%Z; [injection H as _ <-; lia|].
    apply IH in H. lia.
  - apply bind_Ok in H. destruct H as [[arr m] [E [= _ <-]]].
    now apply (read_elems_advances _ IH) in E.
  - destruct (resolveDefined idl name) as [[fields|variants]|].
    + apply bind_Ok in H. destruct H as [[obj m] [E [= _ <-]]].
      now apply (decode_fields_advances _ IH) in E.
    + unfold decodeEnum in H. apply bind_Ok in H. destruct H as [[tag no] [E H]].
      apply reader_Ok_advances in E.
      destruct (nth_error variants (Z.to_nat tag)) as [variant|];
        [|injection H as _ <-; lia].
      destruct (vfields variant) as [[elems|fields|tys]|];
        [destruct (looksLikeNamedFields elems)| | |injection H as _ <-; lia];
        apply bind_Ok in H; destruct H as [[out m] [E' [= _ <-]]].
      * apply (decode_flat_named_advances _ IH) in E'. lia.
      * apply (decode_flat_types_advances _ IH) in E'. lia.
      * apply (decode_fields_advances _ IH) in E'. lia.
      * apply (decode_types_advances _ IH) in E'. lia.
    + injection H as _ <-. lia.
Qed.

Lemma reader_Ok_within {A : Type} (get : N -> Res A) (bytes : list byte)
      (offset k : N) (v : A) (n : N) :
  (forall x, get offset = Ok x -> offset + k <= N.of_nat (List.length bytes)) ->
  (x <- get offset ;; Ok (x, offset + k)) = Ok (v, n) ->
  n <= N.of_nat (List.length bytes).
Proof.
  intros Hget H. apply bind_Ok in H. destruct H as [x [E [= _ <-]]]. eauto.
Qed.

Lemma getUint_Ok bits bytes offset v :
  getUint bits bytes offset = Ok v -> offset + bits / 8 <= N.of_nat (List.length bytes).
Proof.
  unfold getUint. intros H. apply bind_Ok in H. destruct H as [n [E _]].
  now apply view_get_Ok in E.
Qed.

Lemma getInt_Ok bits bytes offset v :
  getInt bits bytes offset = Ok v -> offset + bits / 8 <= N.of_nat (List.length bytes).
Proof.
  unfold getInt. intros H. apply bind_Ok in H. destruct H as [n [E _]].
  now apply view_get_Ok in E.
Qed.

Section Within.
Variable bytes : list byte.
Variable dec : N -> IdlType -> Res (Value * N).
Let len := N.of_nat (List.length bytes).
Hypothesis Hin : within len dec.

Lemma read_elems_within count elem : forall out off vs n,
  view_only elem = true -> off <= len ->
  read_elems dec count elem out off = Ok (vs, n) -> n <= len.
Proof.
  induction count as [|count IH]; simpl; intros out off vs n Hv Hoff H.
  - now injection H as _ <-.
  - apply bind_Ok in H. destruct H as [[v m] [Hd H]].
    apply Hin in Hd; eauto.
Qed.

Lemma decode_fields_within fields : forall obj off out n,
  forallb (fun f => view_only (ftype f)) fields = true -> off <= len ->
  decode_fields dec fields obj off = Ok (out, n) -> n <= len.
Proof.
  induction fields as [|f fields IH]; simpl; intros obj off out n Hv Hoff H.
  - now injection H as _ <-.
  - apply andb_true_iff in Hv. destruct Hv as [Hf Hv].
    apply bind_Ok in H. destruct H as [[v m] [Hd H]].
    apply Hin in Hd; eauto.
Qed.

Lemma decode_types_within tys : forall arr off out n,
  forallb view_only tys = true -> off <= len ->
  decode_types dec tys arr off = Ok (out, n) -> n <= len.
Proof.
  induction tys as [|t tys IH]; simpl; intros arr off out n Hv Hoff H.
  - now injection H as _ <-.
  - apply andb_true_iff in Hv. destruct Hv as [Ht Hv].
    apply bind_Ok in H. destruct H as [[v m] [Hd H]].
    apply Hin in Hd; eauto.
Qed.

Lemma decode_flat_named_within elems : forall obj off out n,
  forallb view_only_elem elems = true -> off <= len ->
  decode_flat_named dec elems obj off = Ok (out, n) -> n <= len.
Proof.
  induction elems as [|[f|t] elems IH]; simpl; intros obj off out n Hv Hoff H.
  - now injection H as _ <-.
  - apply andb_true_iff in Hv. destruct Hv as [Hf Hv].
    apply bind_Ok in H. destruct H as [[v m] [Hd H]].
    apply Hin in Hd; eauto.
  - discriminate.
Qed.

Lemma decode_flat_types_within elems : forall arr off out n,
  forallb view_only_elem elems = true -> off <= len ->
  decode_flat_types dec elems arr off = Ok (out, n) -> n <= len.
Proof.
  induction elems as [|[f|t] elems IH]; simpl; intros arr off out n Hv Hoff H;
    [now injection H as _ <- | |];
    apply andb_true_iff in Hv; destruct Hv as [Hx Hv].
  - eauto.
  - apply bind_Ok in H. destruct H as [[v m] [Hd H]].
    apply Hin in Hd; eauto.
Qed.
End Within.

Lemma resolveDefined_view_only idl name def :
  view_only_idl idl = true -> resolveDefined idl name = Some def ->
  view_only_def def = true.
Proof.
  unfold view_only_idl, resolveDefined. intros Hidl H.
  destruct (find _ (types idl)) as [e|] eqn:E; [|discriminate].
  injection H as <-. apply find_some in E. destruct E as [Hin _].
  rewrite forallb_forall in Hidl. now apply Hidl.
Qed.

(** In a schema without strings and public keys, a decode that starts
    inside the buffer ends inside it: every read is checked by the view. *)
Lemma decodeType_within bytes idl fuel :
  view_only_idl idl = true ->
  within (N.of_nat (List.length bytes)) (decodeType fuel bytes idl).
Proof.
  intros Hidl.
  induction fuel as [|fuel IH]; intros off t v n Hv Hoff H; [discriminate|].
  destruct t; cbn [decodeType] in H; try discriminate Hv; cbn [view_only] in Hv.
  1-8: apply bind_Ok in H; destruct H as [[x m] [E [= _ <-]]];
       apply (reader_Ok_within _ bytes) in E; auto;
       intros y Hy; first [apply getUint_Ok in Hy | apply getInt_Ok in Hy]; exact Hy.
  - apply bind_Ok in H. destruct H as [[x m] [E [= _ <-]]].
    unfold readBool in E. apply bind_Ok in E. destruct E as [[y k] [E [= _ <-]]].
    apply (reader_Ok_within _ bytes) in E; auto.
    intros z Hz. apply getUint_Ok in Hz. exact Hz.
  - apply bind_Ok in H. destruct H as [[arr m] [E [= _ <-]]].
    unfold readVec in E. apply bind_Ok in E. destruct E as [[len no] [E1 E2]].
    apply (reader_Ok_within _ bytes) in E1;
      [|intros z Hz; apply getUint_Ok in Hz; exact Hz].
    now apply (read_elems_within bytes _ IH) in E2.
  - apply bind_Ok in H. destruct H as [[arr m] [E [= _ <-]]].
    unfold readVec in E. apply bind_Ok in E. destruct E as [[len no] [E1 E2]].
    apply (reader_Ok_within _ bytes) in E1;
      [|intros z Hz; apply getUint_Ok in Hz; exact Hz].
    now apply (read_elems_within bytes _ IH) in E2.
  - apply bind_Ok in H. destruct H as [[has no] [E H]].
    apply (reader_Ok_within _ bytes) in E;
      [|intros z Hz; apply getUint_Ok in Hz; exact Hz].
    destruct (has =? 0)%Z; [now injection H as _ <-|].
    now apply IH in H.
  - apply bind_Ok in H. destruct H as [[arr m] [E [= _ <-]]].
    now apply (read_elems_within bytes _ IH) in E.
  - destruct (resolveDefined idl name) as [[fields|variants]|] eqn:Er.
    + apply (resolveDefined_view_only _ _ _ Hidl) in Er. cbn [view_only_def] in Er.
      apply bind_Ok in H. destruct H as [[obj m] [E [= _ <-]]].
      now apply (decode_fields_within bytes _ IH) in E.
    + apply (resolveDefined_view_only _ _ _ Hidl) in Er. cbn [view_only_def] in Er.
      unfold decodeEnum in H. apply bind_Ok in H. destruct H as [[tag no] [E H]].
      apply (reader_Ok_within _ bytes) in E;
        [|intros z Hz; apply getUint_Ok in Hz; exact Hz].
      destruct (nth_error variants (Z.to_nat tag)) as [variant|] eqn:En;
        [|now injection H as _ <-].
      apply nth_error_In in En. rewrite forallb_forall in Er.
      apply Er in En. unfold view_only_variant in En.
      destruct (vfields variant) as [[elems|fields|tys]|];
        [destruct (looksLikeNamedFields elems)| | |now injection H as _ <-];
        apply bind_Ok in H; destruct H as [[out m] [E' [= _ <-]]].
      * now apply (decode_flat_named_within bytes _ IH) in E'.
      * now apply (decode_flat_types_within bytes _ IH) in E'.
      * now apply (decode_fields_within bytes _ IH) in E'.
      * now apply (decode_types_within bytes _ IH) in E'.
    + now injection H as _ <-.
Qed.

(** A vector of [u8] consumes its 4-byte count and one byte per
    element. *)
Lemma read_elems_u8 fuel bytes idl count : forall out off,
  off + N.of_nat count <= N.of_nat (List.length bytes) ->
  read_elems (decodeType (S fuel) bytes idl) count TU8 out off
  = Ok (out ++ map (fun b => VNum (Z.of_N (Byte.to_N b)))
                   (firstn count (skipn (N.to_nat off) bytes)),
        off + N.of_nat count).
Proof.
  induction count as [|count IH]; intros out off Hle.
  - simpl. now rewrite app_nil_r, N.add_0_r.
  - destruct (nth_error bytes (N.to_nat off)) as [b|] eqn:Eb.
    2:{ apply nth_error_None in Eb. lia. }
    cbn [read_elems decodeType]. rewrite (readU8_byte _ _ _ Eb). cbn [bind].
    rewrite IH by lia.
    rewrite (skipn_nth_error _ _ _ Eb). cbn [firstn map].
    replace (N.to_nat (off + 1)) with (S (N.to_nat off)) by lia.
    rewrite <- app_assoc. do 2 f_equal. lia.
Qed.

Lemma vec_u8_consumes fuel bytes idl offset count :
  view_get bytes offset 4 = Ok count ->
  offset + 4 + count <= N.of_nat (List.length bytes) ->
  decodeType (S (S fuel)) bytes idl offset (TVec TU8)
  = Ok (VArr (map (fun b => VNum (Z.of_N (Byte.to_N b)))
                  (Uint8Array_slice bytes (offset + 4) (offset + 4 + count))),
        offset + 4 + count).
Proof.
  intros Hget Hle.
  change (decodeType (S (S fuel)) bytes idl offset (TVec TU8))
    with ('(arr, n) <- readVec (decodeType (S fuel) bytes idl) bytes offset TU8 ;;
          Ok (VArr arr, n)).
  unfold readVec, readU32, getUint.
  change (32 / 8) with 4. rewrite Hget. cbn [bind].
  replace (Z.to_nat (Z.of_N count)) with (N.to_nat count) by lia.
  rewrite read_elems_u8 by lia.
  cbn [bind app]. unfold Uint8Array_slice.
  replace (N.to_nat (offset + 4 + count - (offset + 4))) with (N.to_nat count) by lia.
  now rewrite N2Nat.id.
Qed.

(** A read of fixed width throws when it does not fit in the buffer,
    and otherwise moves the cursor by exactly the width. *)
Lemma fixed_width_read fuel bytes idl offset t w :
  fixed_width t = Some w ->
  if offset + w <=? N.of_nat (List.length bytes)
  then exists v, decodeType (S fuel) bytes idl offset t = Ok (v, offset + w)
  else decodeType (S fuel) bytes idl offset t = Throw BufferUnderrun.
Proof.
  intros Hw.
  destruct t; try discriminate Hw; injection Hw as <-; cbn [decodeType];
    unfold readBool, readU8, readI8, readU16, readI16, readU32, readI32,
           readU64, readI64, getUint, getInt, view_get;
    match goal with
    | |- context [?o + ?b / 8] =>
        let k := eval vm_compute in (b / 8) in change (b / 8) with k
    end;
    destruct (_ <=? _); cbn [bind]; eauto.
Qed.

Lemma u32_underrun fuel bytes idl offset :
  N.of_nat (List.length bytes) < offset + 4 ->
  decodeType (S fuel) bytes idl offset TU32 = Throw BufferUnderrun.
Proof.
  intros H.
  pose proof (fixed_width_read fuel bytes idl offset TU32 4 eq_refl) as R.
  now replace (offset + 4 <=? N.of_nat (List.length bytes)) with false in R
    by (symmetry; apply N.leb_gt; lia).
Qed.

(** An exception in one field ends the decode of the whole struct. *)
Lemma decode_fields_throw dec pre f post vs off off1 e :
  decodes_seq dec off (map ftype pre) vs off1 ->
  dec off1 (ftype f) = Throw e ->
  forall obj, decode_fields dec (pre ++ f :: post) obj off = Throw e.
Proof.
  revert vs off; induction pre as [|g pre IH]; intros vs off Hs He obj;
    inversion Hs; subst; simpl.
  - now rewrite He.
  - match goal with H : dec _ _ = Ok _ |- _ => rewrite H end. simpl. eauto.
Qed.

(** [readString] succeeds whenever its length prefix can be read,
    however few bytes follow. *)
Lemma readString_clamps bytes offset len :
  view_get bytes offset 4 = Ok len ->
  readString bytes offset
  = Ok (TextDecoder_decode (Uint8Array_slice bytes (offset + 4) (offset + 4 + len)),
        offset + 4 + len).
Proof.
  intros H. unfold readString, readU32, getUint.
  change (32 / 8) with 4. rewrite H. cbn [bind]. now rewrite N2Z.id.
Qed.

(** A [defined] reference without a declaration decodes to [null]
    and leaves the cursor where it was. *)
Lemma unresolved_defined_null fuel bytes idl offset name :
  resolveDefined idl name = None ->
  decodeType (S fuel) bytes idl offset (TDefined name) = Ok (VNull, offset).
Proof. intros H. cbn [decodeType]. now rewrite H. Qed.

(** C4, at its failing input. A [u32] read from a 3-byte buffer throws
    the underrun error. A string whose length prefix asks for 5 bytes
    when 2 remain does not: it decodes the 2 bytes that are there and
    returns normally. The same buffer read as [bytes], which has the same
    layout on the wire, throws. *)
Theorem string_length_prefix_not_checked fuel idl :
  decodeType (S fuel) [x01; x02; x03] idl 0 TU32 = Throw BufferUnderrun
  /\ decodeType (S fuel) [x05; x00; x00; x00; "a"%byte; "b"%byte] idl 0 TString
     = Ok (VStr (TextDecoder_decode ["a"%byte; "b"%byte]), 9)
  /\ decodeType (S (S fuel)) [x05; x00; x00; x00; "a"%byte; "b"%byte] idl 0 TBytes
     = Throw BufferUnderrun.
Proof. repeat split. Qed.

(** C5, at its failing input. In the struct [{a: defined(Missing),
    b: u8}] decoded from the bytes 1, 2 the field [a] is [null] and the
    cursor stays at 0, so [b] is read from the byte that belongs to [a];
    with the type declared as [{x: u8}], [b] is read from the second
    byte. *)
Theorem unresolved_defined_shifts_siblings fuel :
  let fields := [mkField "a" (TDefined "Missing"); mkField "b" TU8] in
  let declared := mkIdl [] [mkTypeEntry "Missing" (DefStruct [mkField "x" TU8])] in
  decodeStruct (decodeType (S fuel) [x01; x02] (mkIdl [] [])) 0 fields
  = Ok ([("a", VNull); ("b", VNum 1)]%string, 1)
  /\ decodeStruct (decodeType (S (S fuel)) [x01; x02] declared) 0 fields
     = Ok ([("a", VObj [("x", VNum 1)]); ("b", VNum 2)]%string, 2).
Proof. split; reflexivity. Qed.

(** C6, at its failing input. A vector of [u8] with count 3 moves the
    cursor by 4 + 3 = 7. A string with length prefix 5 in a 6-byte
    buffer returns the cursor 9, beyond the end of the buffer. *)
Theorem cursor_exceeds_buffer fuel idl :
  let bytes := [x05; x00; x00; x00; "a"%byte; "b"%byte] in
  decodeType (S (S fuel)) [x03; x00; x00; x00; x0a; x0b; x0c] idl 0 (TVec TU8)
  = Ok (VArr [VNum 10; VNum 11; VNum 12], 7)
  /\ exists v n, decodeType (S fuel) bytes idl 0 TString = Ok (v, n)
                 /\ N.of_nat (List.length bytes) < n.
Proof.
  split; [reflexivity|].
  exists (VStr (TextDecoder_decode ["a"%byte; "b"%byte])), 9.
  split; [reflexivity | simpl; lia].
Qed.

(** ** Further properties of the type decoder *)

(** X1. A decode that returns never returns a cursor before the one it
    started from, whatever the type, the schema and the buffer. *)
Theorem cursor_never_moves_back fuel bytes idl offset t v n :
  decodeType fuel bytes idl offset t = Ok (v, n) -> offset <= n.
Proof. apply decodeType_advances. Qed.

(** X2. In a schema without string and public-key fields every read
    goes through the view: a decode that starts inside the buffer and
    returns, returns a cursor inside the buffer. *)
Theorem cursor_stays_inside_view_only fuel bytes idl offset t v n :
  view_only_idl idl = true ->
  view_only t = true ->
  offset <= N.of_nat (List.length bytes) ->
  decodeType fuel bytes idl offset t = Ok (v, n) ->
  n <= N.of_nat (List.length bytes).
Proof. intros Hidl Ht Hoff H. exact (decodeType_within bytes idl fuel Hidl _ _ _ _ Ht Hoff H). Qed.

(** X3. A type of fixed width [w] throws the range error exactly when
    fewer than [w] bytes remain at the cursor, and otherwise returns with
    the cursor moved by [w]; a cursor past the end always throws. *)
Theorem fixed_width_underrun fuel bytes idl offset t w :
  fixed_width t = Some w ->
  (decodeType (S fuel) bytes idl offset t = Throw RangeError
   <-> N.of_nat (List.length bytes) < offset + w)
  /\ (offset + w <= N.of_nat (List.length bytes) ->
      exists v, decodeType (S fuel) bytes idl offset t = Ok (v, offset + w)).
Proof.
  intros Hw. pose proof (fixed_width_read fuel bytes idl offset t w Hw) as R.
  destruct (N.leb_spec (offset + w) (N.of_nat (List.length bytes))) as [Hle|Hgt].
  - destruct R as [v R]. split; [|eauto].
    rewrite R. split; [discriminate | lia].
  - split; [tauto | lia].
Qed.

Lemma view_get_bound bytes offset width n :
  view_get bytes offset width = Ok n -> n < 256 ^ width.
Proof.
  unfold view_get. destruct (_ <=? _); [|discriminate]. intros [= <-].
  eapply N.lt_le_trans; [apply le_value_bound|].
  apply N.pow_le_mono_r; [lia|]. rewrite length_firstn. lia.
Qed.

(** X4. The integer types of 8, 16 and 32 bits decode to a number in
    the range of the type, and a signed type reads the two's complement
    of what the unsigned type of the same width reads at the same place. *)
Theorem integer_values fuel bytes idl offset t lo hi v n :
  int_range t = Some (lo, hi) ->
  decodeType (S fuel) bytes idl offset t = Ok (v, n) ->
  exists z, v = VNum z /\ (lo <= z < hi)%Z
            /\ forall t', unsigned_of t = Some t' ->
                 decodeType (S fuel) bytes idl offset t'
                 = Ok (VNum (z mod (2 * hi)), n).
Proof.
  intros Hr H.
  assert (Hread : exists bits signed m,
             view_get bytes offset (bits / 8) = Ok m
             /\ v = VNum (if signed : bool then to_signed bits m else Z.of_N m)
             /\ n = offset + bits / 8
             /\ (bits = 8 \/ bits = 16 \/ bits = 32)
             /\ (lo, hi) = (if signed then (- 2 ^ (Z.of_N bits - 1), 2 ^ (Z.of_N bits - 1))
                            else (0, 2 ^ Z.of_N bits))%Z
             /\ unsigned_of t
                = (if signed
                   then Some (if bits =? 8 then TU8 else if bits =? 16 then TU16 else TU32)
                   else None)).
  { destruct t; try discriminate Hr; injection Hr as <- <-; cbn [decodeType] in H;
      unfold readU8, readI8, readU16, readI16, readU32, readI32, getUint, getInt in H;
      match type of H with
      | context [view_get ?b ?o (?bits / 8)] =>
          destruct (view_get b o (bits / 8)) as [m| |] eqn:E;
          cbn [bind] in H; try discriminate H; injection H as <- <-;
          exists bits
      end;
      [exists false | exists true | exists false | exists true | exists false | exists true];
      exists m; repeat split; auto. }
  destruct Hread as (bits & signed & m & Hget & Hv & Hn & Hbits & Hrange & Hu).
  subst v n.
  pose proof (view_get_bound _ _ _ _ Hget) as Hm.
  assert (Hm' : (Z.of_N m < 2 ^ Z.of_N bits)%Z).
  { destruct Hbits as [-> | [-> | ->] ]; cbn in Hm |- *; lia. }
  eexists. split; [reflexivity|]. split.
  - destruct signed; injection Hrange as -> ->; [|lia].
    unfold to_signed.
    destruct Hbits as [-> | [-> | ->] ]; cbn in Hm' |- *;
      match goal with |- context [?a <? ?c] => destruct (N.ltb_spec a c) end; lia.
  - intros t' Ht'. rewrite Hu in Ht'. destruct signed; [|discriminate].
    injection Ht' as <-. injection Hrange as -> ->.
    assert (Hmod : (to_signed bits m mod (2 * 2 ^ (Z.of_N bits - 1)) = Z.of_N m)%Z).
    { unfold to_signed.
      destruct Hbits as [-> | [-> | ->] ]; cbn in Hm' |- *;
        match goal with |- context [?a <? ?c] => destruct (N.ltb_spec a c) end;
        first [ rewrite Z.mod_small by lia; reflexivity
              | symmetry; apply (Z.mod_unique_pos _ _ (-1)); lia ]. }
    rewrite Hmod.
    destruct Hbits as [-> | [-> | ->] ]; cbn [N.eqb Pos.eqb decodeType];
      unfold readU8, readU16, readU32, getUint; rewrite Hget; reflexivity.
Qed.

Lemma read_elems_u8_underrun fuel bytes idl count : forall out off,
  off <= N.of_nat (List.length bytes) ->
  N.of_nat (List.length bytes) < off + N.of_nat count ->
  read_elems (decodeType (S fuel) bytes idl) count TU8 out off = Throw RangeError.
Proof.
  induction count as [|count IH]; intros out off Hoff Hlen; [lia|].
  destruct (nth_error bytes (N.to_nat off)) as [b|] eqn:Eb.
  - assert (N.to_nat off < List.length bytes)%nat
      by (apply nth_error_Some; congruence).
    cbn [read_elems decodeType]. rewrite (readU8_byte _ _ _ Eb). cbn [bind].
    apply IH; lia.
  - apply nth_error_None in Eb.
    cbn [read_elems].
    pose proof (fixed_width_read fuel bytes idl off TU8 1 eq_refl) as R.
    replace (off + 1 <=? N.of_nat (List.length bytes)) with false in R
      by (symmetry; apply N.leb_gt; lia).
    now rewrite R.
Qed.

Lemma byte_of_to_N (b : byte) : byte_of_N (Byte.to_N b) = b.
Proof.
  unfold byte_of_N.
  rewrite N.mod_small by (pose proof (Byte.to_N_bounded b); lia).
  now rewrite Byte.of_to_N.
Qed.

Lemma Uint8Array_from_numbers (bs : list byte) :
  Uint8Array_from (map (fun b => VNum (Z.of_N (Byte.to_N b))) bs) = bs.
Proof.
  unfold Uint8Array_from. rewrite map_map.
  rewrite <- (map_id bs) at 2. apply map_ext. intros b.
  pose proof (Byte.to_N_bounded b).
  rewrite Z.mod_small by lia. rewrite N2Z.id. apply byte_of_to_N.
Qed.

(** X5. A byte blob whose 4-byte count can be read decodes to ["0x"]
    followed by the lowercase hexadecimal digits of exactly the [count]
    bytes after the prefix, with the cursor just past them; when fewer
    than [count] bytes remain it throws the range error and nothing is
    returned. *)
Theorem bytes_blob_is_hex_or_underrun fuel bytes idl offset count :
  view_get bytes offset 4 = Ok count ->
  if offset + 4 + count <=? N.of_nat (List.length bytes)
  then decodeType (S (S fuel)) bytes idl offset TBytes
       = Ok (VStr ("0x" ++ toHex (Uint8Array_slice bytes (offset + 4) (offset + 4 + count))),
             offset + 4 + count)
  else decodeType (S (S fuel)) bytes idl offset TBytes = Throw RangeError.
Proof.
  intros Hget.
  change (decodeType (S (S fuel)) bytes idl offset TBytes)
    with ('(arr, n) <- readVec (decodeType (S fuel) bytes idl) bytes offset TU8 ;;
          Ok (VStr ("0x" ++ toHex (Uint8Array_from arr)), n)).
  unfold readVec, readU32, getUint. change (32 / 8) with 4. rewrite Hget. cbn [bind].
  replace (Z.to_nat (Z.of_N count)) with (N.to_nat count) by lia.
  pose proof (view_get_Ok _ _ _ _ Hget) as Hpre.
  destruct (N.leb_spec (offset + 4 + count) (N.of_nat (List.length bytes))) as [Hle|Hgt].
  - rewrite read_elems_u8 by lia. cbn [bind app].
    rewrite Uint8Array_from_numbers. unfold Uint8Array_slice.
    replace (N.to_nat (offset + 4 + count - (offset + 4))) with (N.to_nat count) by lia.
    now rewrite N2Nat.id.
  - rewrite read_elems_u8_underrun by lia. reflexivity.
Qed.

Lemma read_elems_length dec count elem : forall out off vs n,
  read_elems dec count elem out off = Ok (vs, n) ->
  List.length vs = (List.length out + count)%nat.
Proof.
  induction count as [|count IH]; simpl; intros out off vs n H.
  - injection H as <- _. lia.
  - apply bind_Ok in H. destruct H as [[v m] [_ H]].
    apply IH in H. rewrite length_app in H. simpl in H. lia.
Qed.

(** X6. A vector that decodes holds exactly as many elements as its
    4-byte count says, and a fixed array exactly as many as its declared
    length; with count 0 a vector decodes to the empty list and consumes
    the 4 bytes of the count only, whatever the element type. *)
Theorem vec_array_lengths fuel bytes idl offset elem :
  (forall v n, decodeType (S fuel) bytes idl offset (TVec elem) = Ok (v, n) ->
     exists count vs, view_get bytes offset 4 = Ok count
                      /\ v = VArr vs /\ List.length vs = N.to_nat count)
  /\ (forall len v n, decodeType (S fuel) bytes idl offset (TArray elem len) = Ok (v, n) ->
        exists vs, v = VArr vs /\ List.length vs = N.to_nat len)
  /\ (view_get bytes offset 4 = Ok 0 ->
      decodeType (S fuel) bytes idl offset (TVec elem) = Ok (VArr [], offset + 4)).
Proof.
  split; [|split].
  - intros v n H. cbn [decodeType] in H.
    apply bind_Ok in H. destruct H as [[arr m] [E [= <- <-]]].
    unfold readVec, readU32, getUint in E. change (32 / 8) with 4 in E.
    destruct (view_get bytes offset 4) as [count| |]; cbn [bind] in E; try discriminate.
    apply read_elems_length in E. exists count, arr. repeat split. simpl in E. lia.
  - intros len v n H. cbn [decodeType] in H.
    apply bind_Ok in H. destruct H as [[arr m] [E [= <- <-]]].
    apply read_elems_length in E. exists arr. split; [reflexivity | simpl in E; lia].
  - intros H. cbn [decodeType]. unfold readVec, readU32, getUint.
    change (32 / 8) with 4. rewrite H. reflexivity.
Qed.

(** ** Objects built by assignment *)







(** ** Further properties of the account resolver *)

Lemma find_first_named (name : string) (accs : list IdlAccount) (acc : IdlAccount) :
  In acc accs -> acc_name acc = name ->
  exists acc', find (fun a => String.eqb (acc_name a) name) accs = Some acc'
               /\ acc_name acc' = name /\ In acc' accs.
Proof.
  intros Hin Hname.
  destruct (find (fun a => String.eqb (acc_name a) name) accs) as [acc'|] eqn:E.
  - apply find_some in E. destruct E as [Hin' E]. apply String.eqb_eq in E. eauto.
  - apply (find_none _ _ E) in Hin. rewrite Hname, String.eqb_refl in Hin. discriminate.
Qed.

Lemma decodeAccount_Some fuel bytes idl start name fields name' data :
  decodeAccount fuel bytes idl start name fields = Ok (Some (name', data)) ->
  name' = name
  /\ exists obj n,
       decodeStruct (decodeType fuel (skipn start bytes) idl) 0 fields = Ok (obj, n)
       /\ data = VObj obj.
Proof.
  unfold decodeAccount. intros H. apply bind_Ok in H.
  destruct H as [[obj n] [E [= <- <-]]]. eauto.
Qed.

(** X8. Whatever auto-detection returns is backed by the schema and the
    buffer: the returned name is that of a declared account type, the
    buffer has at least 8 bytes and starts with the discriminator of that
    name, and the data are the struct decoded from the bytes after the
    discriminator against the field list found for that name. *)
Theorem auto_detect_sound fuel bytes idl name data :
  parseAccountWithIdl fuel bytes idl = Ok (Some (name, data)) ->
  (exists acc, In acc (accounts idl) /\ acc_name acc = name)
  /\ (8 <= List.length bytes)%nat
  /\ firstn 8 bytes = discriminatorOf name
  /\ exists fields obj n,
       getAccountStructFields idl name = Some fields
       /\ decodeStruct (decodeType fuel (skipn 8 bytes) idl) 0 fields = Ok (obj, n)
       /\ data = VObj obj.
Proof.
  rewrite parseAccountWithIdl_find.
  destruct (find _ (accounts idl)) as [acc|] eqn:E; [|discriminate].
  apply find_some in E. destruct E as [Hin E].
  apply andb_true_iff in E. destruct E as [Hm Hf].
  destruct (getAccountStructFields idl (acc_name acc)) as [fields|] eqn:Ef;
    [|discriminate].
  intros H. apply decodeAccount_Some in H. destruct H as [-> [obj [n [Hd ->]]]].
  split; [eauto|]. split; [exact (tag_matches_length _ _ Hm)|].
  split; [now apply bytes_eqb_eq|]. eauto 6.
Qed.

(** X9. Selecting by hand the account type that auto-detection finds
    changes nothing: explicit selection of that name returns the same
    account, decoded from the same bytes. *)
Theorem explicit_agrees_with_auto fuel bytes idl name data :
  name <> ""%string ->
  parseAccountWithIdl fuel bytes idl = Ok (Some (name, data)) ->
  parseAccountAutoOrSelected fuel bytes idl (Some name) = Ok (Some (name, data)).
Proof.
  intros Hname H.
  rewrite parseAccountWithIdl_find in H.
  destruct (find _ (accounts idl)) as [acc|] eqn:E; [|discriminate].
  apply find_some in E. destruct E as [Hin E].
  apply andb_true_iff in E. destruct E as [Hm Hf].
  destruct (getAccountStructFields idl (acc_name acc)) as [fields|] eqn:Ef;
    [|discriminate].
  pose proof (decodeAccount_Some _ _ _ _ _ _ _ _ H) as [Hn _]. subst name.
  destruct (find_first_named (acc_name acc) _ acc Hin eq_refl) as [acc' [Hfind [Hn' _]]].
  rewrite (explicit_mode_decodes fuel bytes idl _ acc' Hname Hfind).
  rewrite Hn', Ef.
  replace (tag_matches bytes acc') with true
    by (unfold tag_matches in *; now rewrite Hn').
  apply tag_matches_length in Hm. apply Nat.leb_le in Hm. rewrite Hm. exact H.
Qed.

(** X10. Explicit selection answers only for the selected name: a name
    that no declared account type carries gives NoMatch for every buffer,
    and an account that is returned carries the selected name, which the
    schema declares with a field list. *)
Theorem explicit_mode_sound fuel bytes idl sel :
  sel <> ""%string ->
  ((forall acc, In acc (accounts idl) -> acc_name acc <> sel) ->
   parseAccountAutoOrSelected fuel bytes idl (Some sel) = Ok None)
  /\ (forall name data,
        parseAccountAutoOrSelected fuel bytes idl (Some sel) = Ok (Some (name, data)) ->
        name = sel
        /\ (exists acc, In acc (accounts idl) /\ acc_name acc = sel)
        /\ exists fields, getAccountStructFields idl sel = Some fields).
Proof.
  intros Hsel. split.
  - intros Hnone. unfold parseAccountAutoOrSelected.
    destruct sel as [|c sel]; [congruence|].
    destruct (find _ (accounts idl)) as [acc|] eqn:E; [|reflexivity].
    apply find_some in E. destruct E as [Hin E]. apply String.eqb_eq in E.
    now elim (Hnone acc Hin).
  - intros name data H.
    destruct (find (fun a => String.eqb (acc_name a) sel) (accounts idl))
      as [acc|] eqn:E.
    + rewrite (explicit_mode_decodes fuel bytes idl sel acc Hsel E) in H.
      apply find_some in E. destruct E as [Hin E]. apply String.eqb_eq in E.
      destruct (getAccountStructFields idl (acc_name acc)) as [fields|] eqn:Ef;
        [|discriminate].
      apply decodeAccount_Some in H. destruct H as [-> _].
      split; [exact E|]. split; [eauto|]. rewrite <- E. eauto.
    + unfold parseAccountAutoOrSelected in H.
      destruct sel as [|c sel]; [congruence|]. rewrite E in H. discriminate.
Qed.

(** ** Recursion through the schema *)


Lemma bind_returns {A B : Type} (c : Res A) (k : A -> Res B) :
  c <> OutOfFuel -> (forall a, k a <> OutOfFuel) -> bind c k <> OutOfFuel.
Proof. destruct c; simpl; auto; discriminate. Qed.

Lemma view_get_returns bytes offset width : view_get bytes offset width <> OutOfFuel.
Proof. unfold view_get. destruct (_ <=? _); discriminate. Qed.

Lemma getUint_returns bits bytes offset : getUint bits bytes offset <> OutOfFuel.
Proof.
  unfold getUint. apply bind_returns; [apply view_get_returns | discriminate].
Qed.

Lemma getInt_returns bits bytes offset : getInt bits bytes offset <> OutOfFuel.
Proof.
  unfold getInt. apply bind_returns; [apply view_get_returns | discriminate].
Qed.

Lemma readU8_returns bytes offset : readU8 bytes offset <> OutOfFuel.
Proof. unfold readU8. apply bind_returns; [apply getUint_returns | discriminate]. Qed.

Lemma readU32_returns bytes offset : readU32 bytes offset <> OutOfFuel.
Proof. unfold readU32. apply bind_returns; [apply getUint_returns | discriminate]. Qed.

Section Returns.
Variable dec : N -> IdlType -> Res (Value * N).
Variable ok : IdlType -> Prop.
Hypothesis Hdec : forall off t, ok t -> dec off t <> OutOfFuel.

Lemma read_elems_returns count elem : forall out off,
  ok elem -> read_elems dec count elem out off <> OutOfFuel.
Proof.
  induction count as [|count IH]; simpl; intros out off Hok; [discriminate|].
  apply bind_returns; [auto|]. intros [v n]. auto.
Qed.

Lemma decode_fields_returns fields : forall obj off,
  Forall ok (map ftype fields) -> decode_fields dec fields obj off <> OutOfFuel.
Proof.
  induction fields as [|f fields IH]; simpl; intros obj off Hok; [discriminate|].
  inversion Hok; subst. apply bind_returns; [auto|]. intros [v n]. auto.
Qed.

Lemma decode_types_returns tys : forall arr off,
  Forall ok tys -> decode_types dec tys arr off <> OutOfFuel.
Proof.
  induction tys as [|t tys IH]; simpl; intros arr off Hok; [discriminate|].
  inversion Hok; subst. apply bind_returns; [auto|]. intros [v n]. auto.
Qed.

Lemma decode_flat_named_returns elems : forall obj off,
  Forall ok (map elem_type elems) -> decode_flat_named dec elems obj off <> OutOfFuel.
Proof.
  induction elems as [|[f|t] elems IH]; simpl; intros obj off Hok; try discriminate.
  inversion Hok; subst. apply bind_returns; [auto|]. intros [v n]. auto.
Qed.

Lemma decode_flat_types_returns elems : forall arr off,
  Forall ok (map elem_type elems) -> decode_flat_types dec elems arr off <> OutOfFuel.
Proof.
  induction elems as [|[f|t] elems IH]; simpl; intros arr off Hok; [discriminate| |];
    inversion Hok; subst.
  - auto.
  - apply bind_returns; [auto|]. intros [v n]. auto.
Qed.

Lemma decodeEnum_returns bytes offset variants :
  (forall v, In v variants -> Forall ok (variant_types v)) ->
  decodeEnum dec bytes offset variants <> OutOfFuel.
Proof.
  intros Hok. unfold decodeEnum.
  apply bind_returns; [apply readU8_returns|]. intros [tag no].
  destruct (nth_error variants (Z.to_nat tag)) as [v|] eqn:E; [|discriminate].
  apply nth_error_In in E. specialize (Hok v E). unfold variant_types in Hok.
  destruct (vfields v) as [[elems|fields|tys]|]; [|  | |discriminate].
  - destruct (looksLikeNamedFields elems); apply bind_returns;
      try (intros [x n]; discriminate).
    + now apply decode_flat_named_returns.
    + now apply decode_flat_types_returns.
  - apply bind_returns; [now apply decode_fields_returns|]. intros [x n]; discriminate.
  - apply bind_returns; [now apply decode_types_returns|]. intros [x n]; discriminate.
Qed.
End Returns.

Lemma ranked_def rank D idl name def :
  ranked rank D idl = true -> resolveDefined idl name = Some def ->
  forall t, In t (def_types def) ->
            refs_below rank (rank name) t = true /\ (depth t <= D)%nat.
Proof.
  unfold ranked, resolveDefined. intros Hr H t Ht.
  destruct (find _ (types idl)) as [e|] eqn:E; [|discriminate].
  injection H as <-. apply find_some in E. destruct E as [Hin E].
  apply String.eqb_eq in E. subst name.
  rewrite forallb_forall in Hr. specialize (Hr e Hin).
  rewrite forallb_forall in Hr. specialize (Hr t Ht).
  apply andb_true_iff in Hr. destruct Hr as [H1 H2].
  apply Nat.leb_le in H2. auto.
Qed.

Lemma ranked_returns rank D idl bytes :
  ranked rank D idl = true ->
  forall r t fuel offset,
    refs_below rank r t = true ->
    (depth t + r * S D <= fuel)%nat ->
    decodeType fuel bytes idl offset t <> OutOfFuel.
Proof.
  intros Hranked r.
  induction r as [r IHr] using (well_founded_induction Wf_nat.lt_wf).
  induction t as [ | | | | | | | | | | | |elem IHt|elem IHt|elem IHt count|name];
    intros fuel offset Hrefs Hfuel;
    (destruct fuel as [|fuel]; [simpl in Hfuel; lia|]);
    cbn [decodeType]; cbn [depth refs_below] in Hrefs, Hfuel.
  1-9: unfold readU8, readI8, readU16, readI16, readU32, readI32, readU64, readI64, readBool;
       repeat (apply bind_returns;
               [first [apply getUint_returns | apply getInt_returns | idtac]
               | first [intros [? ?]; discriminate | discriminate | idtac]]).
  - unfold readString. apply bind_returns; [|intros [? ?]; discriminate].
    apply bind_returns; [apply readU32_returns | intros [? ?]; discriminate].
  - destruct (PublicKey_toBase58 _); discriminate.
  - apply bind_returns; [|intros [? ?]; discriminate].
    unfold readVec. apply bind_returns; [apply readU32_returns|]. intros [len no].
    apply (read_elems_returns _ (fun t => t = TU8)); [|reflexivity].
    intros off t ->. destruct fuel as [|fuel]; [lia|].
    cbn [decodeType]. apply bind_returns; [apply readU8_returns|].
    intros [? ?]; discriminate.
  - apply bind_returns; [|intros [? ?]; discriminate].
    unfold readVec. apply bind_returns; [apply readU32_returns|]. intros [len no].
    apply (read_elems_returns _ (fun t => t = elem)); [|reflexivity].
    intros off t ->. apply IHt; [assumption | lia].
  - apply bind_returns; [apply readU8_returns|]. intros [has no].
    destruct (has =? 0)%Z; [discriminate|]. apply IHt; [assumption | lia].
  - apply bind_returns; [|intros [? ?]; discriminate].
    unfold readArray.
    apply (read_elems_returns _ (fun t => t = elem)); [|reflexivity].
    intros off t ->. apply IHt; [assumption | lia].
  - apply Nat.ltb_lt in Hrefs.
    destruct (resolveDefined idl name) as [def|] eqn:Er; [|discriminate].
    pose proof (ranked_def _ _ _ _ _ Hranked Er) as Hdef.
    assert (Hdec : forall off t, In t (def_types def) ->
                     decodeType fuel bytes idl off t <> OutOfFuel).
    { intros off t Ht. destruct (Hdef t Ht) as [Hb Hd].
      apply (IHr (rank name) Hrefs); [assumption | nia]. }
    destruct def as [fields|variants].
    + apply bind_returns; [|intros [? ?]; discriminate].
      apply (decode_fields_returns _ _ Hdec). now apply Forall_forall.
    + apply (decodeEnum_returns _ _ Hdec). intros v Hv.
      apply Forall_forall. intros t Ht. cbn [def_types].
      apply in_flat_map. eauto.
Qed.

(** X12. On a schema without cycles the decoder always comes back: for
    a type whose references have rank below [r], fuel of
    [depth t + r * (D + 1)] or more gives a value or an exception, never
    an unfinished recursion, and more fuel gives the same outcome. *)
Theorem acyclic_schema_terminates rank D idl bytes r t fuel offset :
  ranked rank D idl = true ->
  refs_below rank r t = true ->
  (depth t + r * S D <= fuel)%nat ->
  decodeType fuel bytes idl offset t <> OutOfFuel
  /\ forall fuel', (fuel <= fuel')%nat ->
       decodeType fuel' bytes idl offset t = decodeType fuel bytes idl offset t.
Proof.
  intros Hranked Hrefs Hfuel.
  pose proof (ranked_returns rank D idl bytes Hranked r t fuel offset Hrefs Hfuel) as H.
  split; [exact H|]. intros fuel' Hle. now apply decodeType_fuel_mono.
Qed.

(** ** Elements that take no bytes *)

Lemma read_elems_null dec elem count : forall out off,
  (forall o, dec o elem = Ok (VNull, o)) ->
  read_elems dec count elem out off = Ok (out ++ repeat VNull count, off).
Proof.
  induction count as [|count IH]; intros out off Hd; simpl.
  - now rewrite app_nil_r.
  - rewrite Hd. simpl. rewrite IH by assumption. now rewrite <- app_assoc.
Qed.

(** X13. A vector whose element type is a reference the schema does not
    declare takes its count on trust: it returns that many [null]s and
    consumes the 4 bytes of the count only, for any count and any bytes
    after it. *)
Theorem vec_of_unresolved_is_nulls fuel bytes idl offset name count :
  resolveDefined idl name = None ->
  view_get bytes offset 4 = Ok count ->
  decodeType (S (S fuel)) bytes idl offset (TVec (TDefined name))
  = Ok (VArr (repeat VNull (N.to_nat count)), offset + 4).
Proof.
  intros Hres Hget.
  change (decodeType (S (S fuel)) bytes idl offset (TVec (TDefined name)))
    with ('(arr, n) <- readVec (decodeType (S fuel) bytes idl) bytes offset
                               (TDefined name) ;;
          Ok (VArr arr, n)).
  unfold readVec, readU32, getUint. change (32 / 8) with 4. rewrite Hget. cbn [bind].
  replace (Z.to_nat (Z.of_N count)) with (N.to_nat count) by lia.
  rewrite read_elems_null; [reflexivity|].
  intros o. now apply unresolved_defined_null.
Qed.

(** ** Bytes after the cursor *)

Lemma view_get_app bytes extra offset width n :
  view_get bytes offset width = Ok n ->
  view_get (bytes ++ extra) offset width = Ok n.
Proof.
  unfold view_get. rewrite length_app.
  destruct (N.leb_spec (offset + width) (N.of_nat (List.length bytes))) as [Hle|];
    [|discriminate].
  intros [= <-].
  replace (offset + width <=? N.of_nat (List.length bytes + List.length extra)) with true
    by (symmetry; apply N.leb_le; lia).
  rewrite skipn_app, firstn_app, length_skipn.
  replace (N.to_nat width - (List.length bytes - N.to_nat offset))%nat with 0%nat by lia.
  cbn [firstn]. now rewrite app_nil_r.
Qed.

Lemma Uint8Array_slice_app bytes extra start stop :
  stop <= N.of_nat (List.length bytes) ->
  Uint8Array_slice (bytes ++ extra) start stop = Uint8Array_slice bytes start stop.
Proof.
  intros H. unfold Uint8Array_slice.
  rewrite skipn_app, firstn_app, length_skipn.
  replace (N.to_nat (stop - start) - (List.length bytes - N.to_nat start))%nat
    with 0%nat by lia.
  cbn [firstn]. now rewrite app_nil_r.
Qed.

Lemma reader_app {A : Type} (get get' : Res A) (k : A -> Res (A * N)) r :
  (forall x, get = Ok x -> get' = Ok x) ->
  bind get k = Ok r -> bind get' k = Ok r.
Proof.
  intros Hg H. apply bind_Ok in H. destruct H as [x [E H]].
  now rewrite (Hg x E).
Qed.

Lemma getUint_app bits bytes extra offset v :
  getUint bits bytes offset = Ok v -> getUint bits (bytes ++ extra) offset = Ok v.
Proof.
  unfold getUint. intros H. apply bind_Ok in H. destruct H as [n [E H]].
  now rewrite (view_get_app _ extra _ _ _ E).
Qed.

Lemma getInt_app bits bytes extra offset v :
  getInt bits bytes offset = Ok v -> getInt bits (bytes ++ extra) offset = Ok v.
Proof.
  unfold getInt. intros H. apply bind_Ok in H. destruct H as [n [E H]].
  now rewrite (view_get_app _ extra _ _ _ E).
Qed.

Lemma readU8_app bytes extra offset r :
  readU8 bytes offset = Ok r -> readU8 (bytes ++ extra) offset = Ok r.
Proof. unfold readU8. apply reader_app. intros x. apply getUint_app. Qed.

Lemma readU32_app bytes extra offset r :
  readU32 bytes offset = Ok r -> readU32 (bytes ++ extra) offset = Ok r.
Proof. unfold readU32. apply reader_app. intros x. apply getUint_app. Qed.

Lemma readU16_app bytes extra offset r :
  readU16 bytes offset = Ok r -> readU16 (bytes ++ extra) offset = Ok r.
Proof. unfold readU16. apply reader_app. intros x. apply getUint_app. Qed.

Lemma readU64_app bytes extra offset r :
  readU64 bytes offset = Ok r -> readU64 (bytes ++ extra) offset = Ok r.
Proof. unfold readU64. apply reader_app. intros x. apply getUint_app. Qed.

Lemma readI8_app bytes extra offset r :
  readI8 bytes offset = Ok r -> readI8 (bytes ++ extra) offset = Ok r.
Proof. unfold readI8. apply reader_app. intros x. apply getInt_app. Qed.

Lemma readI16_app bytes extra offset r :
  readI16 bytes offset = Ok r -> readI16 (bytes ++ extra) offset = Ok r.
Proof. unfold readI16. apply reader_app. intros x. apply getInt_app. Qed.

Lemma readI32_app bytes extra offset r :
  readI32 bytes offset = Ok r -> readI32 (bytes ++ extra) offset = Ok r.
Proof. unfold readI32. apply reader_app. intros x. apply getInt_app. Qed.

Lemma readI64_app bytes extra offset r :
  readI64 bytes offset = Ok r -> readI64 (bytes ++ extra) offset = Ok r.
Proof. unfold readI64. apply reader_app. intros x. apply getInt_app. Qed.

Lemma readBool_app bytes extra offset r :
  readBool bytes offset = Ok r -> readBool (bytes ++ extra) offset = Ok r.
Proof.
  unfold readBool. intros H. apply bind_Ok in H. destruct H as [x [E H]].
  now rewrite (readU8_app _ extra _ _ E).
Qed.

Section CarriesOver.
Variable len : N.
Variables dec dec' : N -> IdlType -> Res (Value * N).
Hypothesis Hadv : advances dec.
Hypothesis Hco : carries_over len dec dec'.

Lemma read_elems_carries count elem : forall out off vs n,
  read_elems dec count elem out off = Ok (vs, n) -> n <= len ->
  read_elems dec' count elem out off = Ok (vs, n).
Proof.
  induction count as [|count IH]; simpl; intros out off vs n H Hn; [exact H|].
  apply bind_Ok in H. destruct H as [[v m] [Hd H]].
  pose proof (read_elems_advances _ Hadv _ _ _ _ _ _ H) as Hm.
  rewrite (Hco _ _ _ _ Hd) by lia. simpl. now apply IH.
Qed.

Lemma decode_fields_carries fields : forall obj off out n,
  decode_fields dec fields obj off = Ok (out, n) -> n <= len ->
  decode_fields dec' fields obj off = Ok (out, n).
Proof.
  induction fields as [|f fields IH]; simpl; intros obj off out n H Hn; [exact H|].
  apply bind_Ok in H. destruct H as [[v m] [Hd H]].
  pose proof (decode_fields_advances _ Hadv _ _ _ _ _ H) as Hm.
  rewrite (Hco _ _ _ _ Hd) by lia. simpl. now apply IH.
Qed.

Lemma decode_types_carries tys : forall arr off out n,
  decode_types dec tys arr off = Ok (out, n) -> n <= len ->
  decode_types dec' tys arr off = Ok (out, n).
Proof.
  induction tys as [|t tys IH]; simpl; intros arr off out n H Hn; [exact H|].
  apply bind_Ok in H. destruct H as [[v m] [Hd H]].
  pose proof (decode_types_advances _ Hadv _ _ _ _ _ H) as Hm.
  rewrite (Hco _ _ _ _ Hd) by lia. simpl. now apply IH.
Qed.

Lemma decode_flat_named_carries elems : forall obj off out n,
  decode_flat_named dec elems obj off = Ok (out, n) -> n <= len ->
  decode_flat_named dec' elems obj off = Ok (out, n).
Proof.
  induction elems as [|[f|t] elems IH]; simpl; intros obj off out n H Hn;
    try exact H.
  apply bind_Ok in H. destruct H as [[v m] [Hd H]].
  pose proof (decode_flat_named_advances _ Hadv _ _ _ _ _ H) as Hm.
  rewrite (Hco _ _ _ _ Hd) by lia. simpl. now apply IH.
Qed.

Lemma decode_flat_types_carries elems : forall arr off out n,
  decode_flat_types dec elems arr off = Ok (out, n) -> n <= len ->
  decode_flat_types dec' elems arr off = Ok (out, n).
Proof.
  induction elems as [|[f|t] elems IH]; simpl; intros arr off out n H Hn;
    [exact H | now apply IH |].
  apply bind_Ok in H. destruct H as [[v m] [Hd H]].
  pose proof (decode_flat_types_advances _ Hadv _ _ _ _ _ H) as Hm.
  rewrite (Hco _ _ _ _ Hd) by lia. simpl. now apply IH.
Qed.
End CarriesOver.

Lemma decodeType_carries_over bytes extra idl fuel :
  carries_over (N.of_nat (List.length bytes))
    (decodeType fuel bytes idl) (decodeType fuel (bytes ++ extra) idl).
Proof.
  induction fuel as [|fuel IH]; intros off t v n H Hn; [discriminate|].
  pose proof (decodeType_advances bytes idl fuel) as Hadv.
  destruct t; cbn [decodeType] in H |- *.
  1-9: apply bind_Ok in H; destruct H as [r [E H]];
       first [ rewrite (readU8_app _ extra _ _ E) | rewrite (readI8_app _ extra _ _ E)
             | rewrite (readU16_app _ extra _ _ E) | rewrite (readI16_app _ extra _ _ E)
             | rewrite (readU32_app _ extra _ _ E) | rewrite (readI32_app _ extra _ _ E)
             | rewrite (readU64_app _ extra _ _ E) | rewrite (readI64_app _ extra _ _ E)
             | rewrite (readBool_app _ extra _ _ E) ];
       exact H.
  - apply bind_Ok in H. destruct H as [[s m] [E [= <- <-]]].
    unfold readString in *. apply bind_Ok in E. destruct E as [[len no] [E [= <- <-]]].
    rewrite (readU32_app _ extra _ _ E). cbn [bind].
    now rewrite Uint8Array_slice_app.
  - destruct (PublicKey_toBase58 (Uint8Array_slice bytes off (off + 32)))
      as [pk|] eqn:E; [|discriminate].
    injection H as <- <-. now rewrite Uint8Array_slice_app, E.
  - apply bind_Ok in H. destruct H as [[arr m] [E [= <- <-]]].
    unfold readVec in *. apply bind_Ok in E. destruct E as [[len no] [E1 E2]].
    rewrite (readU32_app _ extra _ _ E1). cbn [bind].
    assert (Hu8 : carries_over (N.of_nat (List.length bytes))
                    (decodeType fuel bytes idl) (decodeType fuel (bytes ++ extra) idl))
      by exact IH.
    now rewrite (read_elems_carries _ _ _ Hadv Hu8 _ _ _ _ _ _ E2 Hn).
  - apply bind_Ok in H. destruct H as [[arr m] [E [= <- <-]]].
    unfold readVec in *. apply bind_Ok in E. destruct E as [[len no] [E1 E2]].
    rewrite (readU32_app _ extra _ _ E1). cbn [bind].
    now rewrite (read_elems_carries _ _ _ Hadv IH _ _ _ _ _ _ E2 Hn).
  - apply bind_Ok in H. destruct H as [[has no] [E H]].
    rewrite (readU8_app _ extra _ _ E). cbn [bind].
    destruct (has =? 0)%Z; [exact H|]. now apply IH.
  - apply bind_Ok in H. destruct H as [[arr m] [E [= <- <-]]].
    unfold readArray in *.
    now rewrite (read_elems_carries _ _ _ Hadv IH _ _ _ _ _ _ E Hn).
  - destruct (resolveDefined idl name) as [[fields|variants]|]; [| |exact H].
    + apply bind_Ok in H. destruct H as [[obj m] [E [= <- <-]]].
      unfold decodeStruct in *.
      now rewrite (decode_fields_carries _ _ _ Hadv IH _ _ _ _ _ E Hn).
    + unfold decodeEnum in *. apply bind_Ok in H. destruct H as [[tag no] [E H]].
      rewrite (readU8_app _ extra _ _ E). cbn [bind].
      destruct (nth_error variants (Z.to_nat tag)) as [variant|]; [|exact H].
      destruct (vfields variant) as [[elems|fields|tys]|];
        [destruct (looksLikeNamedFields elems)| | |exact H];
        apply bind_Ok in H; destruct H as [[out m] [E' [= <- <-]]].
      * now rewrite (decode_flat_named_carries _ _ _ Hadv IH _ _ _ _ _ E' Hn).
      * now rewrite (decode_flat_types_carries _ _ _ Hadv IH _ _ _ _ _ E' Hn).
      * now rewrite (decode_fields_carries _ _ _ Hadv IH _ _ _ _ _ E' Hn).
      * now rewrite (decode_types_carries _ _ _ Hadv IH _ _ _ _ _ E' Hn).
Qed.

(** X14. Bytes after the cursor do not matter: a decode that returns a
    cursor inside the buffer returns the same value and cursor when any
    bytes are added at the end of the buffer. *)
Theorem trailing_bytes_are_ignored fuel bytes extra idl offset t v n :
  decodeType fuel bytes idl offset t = Ok (v, n) ->
  n <= N.of_nat (List.length bytes) ->
  decodeType fuel (bytes ++ extra) idl offset t = Ok (v, n).
Proof. apply decodeType_carries_over. Qed.

End Decoder.

(** * The resolver under explicit selection *)

(** C2. When the caller names an account type that the schema declares:
    with at least 8 bytes the discriminator of that one type is compared
    with the first 8 bytes, and the buffer is decoded from offset 8 on a
    match and from offset 0 on a mismatch; with fewer than 8 bytes it is
    decoded from offset 0 and no digest enters the result. A tag mismatch
    never gives NoMatch: that answer depends on the schema alone. *)
Theorem explicit_mode sha256 TextDecoder_decode PublicKey_toBase58
        fuel bytes idl sel acc :
  (forall m, List.length (sha256 m) = 32%nat) ->
  sel <> ""%string ->
  find (fun a => String.eqb (acc_name a) sel) (accounts idl) = Some acc ->
  let r := parseAccountAutoOrSelected sha256 TextDecoder_decode PublicKey_toBase58
             fuel bytes idl (Some sel) in
  let decode_from start fields :=
    decodeAccount TextDecoder_decode PublicKey_toBase58 fuel bytes idl start
                  (acc_name acc) fields in
  (forall fields,
      getAccountStructFields idl (acc_name acc) = Some fields ->
      ((8 <= List.length bytes)%nat ->
       firstn 8 bytes = discriminatorOf sha256 (acc_name acc) ->
       r = decode_from 8%nat fields)
      /\ ((8 <= List.length bytes)%nat ->
          firstn 8 bytes <> discriminatorOf sha256 (acc_name acc) ->
          r = decode_from 0%nat fields)
      /\ ((List.length bytes < 8)%nat ->
          r = decode_from 0%nat fields
          /\ forall sha256',
               parseAccountAutoOrSelected sha256' TextDecoder_decode PublicKey_toBase58
                 fuel bytes idl (Some sel) = r))
  /\ (r = Ok None <-> getAccountStructFields idl (acc_name acc) = None).
Proof.
  intros Hlen Hsel Hfind r decode_from.
  pose proof (explicit_mode_decodes sha256 TextDecoder_decode PublicKey_toBase58
                Hlen fuel bytes idl sel acc Hsel Hfind) as Hr.
  fold r in Hr. split.
  - intros fields Hf. rewrite Hf in Hr. split; [|split; [|intros Hshort; split]].
    + intros H8 Hm. rewrite Hr.
      apply Nat.leb_le in H8. rewrite H8.
      unfold tag_matches. now rewrite (proj2 (bytes_eqb_eq _ _) Hm).
    + intros H8 Hm. rewrite Hr.
      destruct (tag_matches sha256 bytes acc) eqn:E.
      * unfold tag_matches in E. now apply bytes_eqb_eq in E.
      * now rewrite andb_false_r.
    + rewrite Hr.
      now replace (8 <=? List.length bytes)%nat with false
        by (symmetry; apply Nat.leb_gt; lia).
    + intros sha256'. subst r.
      rewrite !(explicit_mode_short_buffer _ _ _ fuel bytes idl sel acc Hsel Hfind Hshort).
      reflexivity.
  - rewrite Hr.
    destruct (getAccountStructFields idl (acc_name acc)) as [fields|].
    + split; [intros H | discriminate].
      now apply decodeAccount_not_None in H.
    + tauto.
Qed.

(** * The decoder on the reference platform *)

Lemma SHA256_digest_length (m : list byte) : List.length (Reference.sha256 m) = 32%nat.
Proof. reflexivity. Qed.

(** The discriminator of the account type [Vault]: the first 8 bytes
    of the SHA-256 digest of ["account:Vault"]. *)
Lemma discriminator_is_digest_prefix_witness :
  (forall m, List.length (Reference.sha256 m) = 32%nat)
  /\ anchorDiscriminatorForAccount Reference.sha256 "Vault"
     = Ok [xd3; x08; xe8; x2b; x02; x98; x75; x77].
Proof.
  split; [exact SHA256_digest_length|].
  rewrite (proj1 (discriminator_is_digest_prefix Reference.sha256
                    SHA256_digest_length "Vault")).
  vm_compute. reflexivity.
Defined.

(** Scenario A on the reference platform: the account type of the
    buffer is found by its discriminator, the first in the schema. *)
Lemma auto_detect_first_match_witness :
  (forall m, List.length (Reference.sha256 m) = 32%nat)
  /\ parseAccountWithIdl Reference.sha256 Reference.TextDecoder_decode
       Reference.PublicKey_toBase58 1
       [xff; xb0; x04; xf5; xbc; xfd; x7c; x19; x07; x00; x00; x00; x00; x00; x00; x00]
       scenarioA_idl
     = Ok (Some ("Counter"%string, VObj [("count"%string, VStr "7")])).
Proof.
  split; [exact SHA256_digest_length|].
  pose proof (auto_detect_first_match Reference.sha256 Reference.TextDecoder_decode
                Reference.PublicKey_toBase58 SHA256_digest_length 1
                [xff; xb0; x04; xf5; xbc; xfd; x7c; x19;
                 x07; x00; x00; x00; x00; x00; x00; x00]
                scenarioA_idl) as H.
  assert (Hfind : find (tag_matches Reference.sha256
                          [xff; xb0; x04; xf5; xbc; xfd; x7c; x19;
                           x07; x00; x00; x00; x00; x00; x00; x00])
                       (accounts scenarioA_idl)
                  = Some (mkAccount "Counter" (Some (AccStruct [mkField "count" TU64]))))
    by (vm_compute; reflexivity).
  rewrite Hfind in H.
  rewrite (H [mkField "count" TU64] eq_refl).
  reflexivity.
Defined.

(** An account type that matches but has no field list anywhere is
    passed over, and nothing else matches. *)
Lemma auto_detect_skips_unlocatable_witness :
  (forall m, List.length (Reference.sha256 m) = 32%nat)
  /\ parseAccountWithIdl Reference.sha256 Reference.TextDecoder_decode
       Reference.PublicKey_toBase58 1
       [xff; xb0; x04; xf5; xbc; xfd; x7c; x19; x07; x00; x00; x00; x00; x00; x00; x00]
       (mkIdl [mkAccount "Counter" None; mkAccount "Vault" (Some (AccStruct []))] [])
     = Ok None.
Proof.
  split; [exact SHA256_digest_length|].
  apply (proj2 (auto_detect_skips_unlocatable Reference.sha256 Reference.TextDecoder_decode
                  Reference.PublicKey_toBase58 SHA256_digest_length 1 _ _)).
  intros acc Hin Hm. simpl in Hin.
  destruct Hin as [<-|[<-|[]]]; [reflexivity|].
  vm_compute in Hm. discriminate.
Defined.

(** Scenario C: explicit selection on a buffer of 4 bytes decodes from
    offset 0. *)
Lemma explicit_mode_witness :
  let idl := mkIdl [mkAccount "Small" (Some (AccStruct [mkField "n" TU32]))] [] in
  (forall m, List.length (Reference.sha256 m) = 32%nat)
  /\ "Small"%string <> ""%string
  /\ find (fun a => String.eqb (acc_name a) "Small") (accounts idl)
     = Some (mkAccount "Small" (Some (AccStruct [mkField "n" TU32])))
  /\ parseAccountAutoOrSelected Reference.sha256 Reference.TextDecoder_decode
       Reference.PublicKey_toBase58 1 [x2a; x00; x00; x00] idl (Some "Small"%string)
     = Ok (Some ("Small"%string, VObj [("n"%string, VNum 42)])).
Proof.
  intros idl.
  assert (Hsel : "Small"%string <> ""%string) by discriminate.
  split; [exact SHA256_digest_length|].
  split; [exact Hsel|]. split; [reflexivity|].
  pose proof (explicit_mode Reference.sha256 Reference.TextDecoder_decode
                Reference.PublicKey_toBase58 1 [x2a; x00; x00; x00] idl "Small"
                (mkAccount "Small" (Some (AccStruct [mkField "n" TU32])))
                SHA256_digest_length Hsel eq_refl) as H.
  cbv zeta in H. destruct H as [H _].
  destruct (H [mkField "n" TU32] eq_refl) as [_ [_ Hshort]].
  destruct Hshort as [Hr _]; [simpl; lia|].
  rewrite Hr. reflexivity.
Defined.

(** The 64-bit value 7, and scenario A with the discriminator of
    [Counter] spelled out. *)
Lemma u64_i64_decimal_strings_witness :
  (forall m, List.length (Reference.sha256 m) = 32%nat)
  /\ firstn 8 (skipn (N.to_nat 0) [x07; x00; x00; x00; x00; x00; x00; x00])
     = [x07; x00; x00; x00; x00; x00; x00; x00]
  /\ decodeType Reference.TextDecoder_decode Reference.PublicKey_toBase58 1
       [x07; x00; x00; x00; x00; x00; x00; x00] scenarioA_idl 0 TU64
     = Ok (VStr "7", 8)
  /\ parseAccountAutoOrSelected Reference.sha256 Reference.TextDecoder_decode
       Reference.PublicKey_toBase58 1
       [xff; xb0; x04; xf5; xbc; xfd; x7c; x19; x07; x00; x00; x00; x00; x00; x00; x00]
       scenarioA_idl None
     = Ok (Some ("Counter"%string, VObj [("count"%string, VStr "7")])).
Proof.
  pose proof (u64_i64_decimal_strings Reference.sha256 Reference.TextDecoder_decode
                Reference.PublicKey_toBase58 SHA256_digest_length 0
                [x07; x00; x00; x00; x00; x00; x00; x00] scenarioA_idl 0
                x07 x00 x00 x00 x00 x00 x00 x00 eq_refl) as H.
  cbv zeta in H. destruct H as [Hu [_ [_ [_ [_ [_ HA]]]]]].
  split; [exact SHA256_digest_length|].
  split; [reflexivity|]. split; [exact Hu | exact HA].
Defined.

(** Scenario B: the bytes 1, 0x2A, 0, 0, 0 decode to the variant
    [Active] with [amount] 42. *)
Lemma enum_decoding_witness :
  resolveDefined scenarioB_idl "Status"
  = Some (DefEnum [mkVariant "Idle" None;
                   mkVariant "Active" (Some (KindStruct [mkField "amount" TU32]))])
  /\ nth_error [x01; x2a; x00; x00; x00] (N.to_nat 0) = Some x01
  /\ decodeType Reference.TextDecoder_decode Reference.PublicKey_toBase58 2
       [x01; x2a; x00; x00; x00] scenarioB_idl 0 (TDefined "Status")
     = Ok (VObj [("tag", VNum 1); ("name", VStr "Active");
                 ("value", VObj [("amount", VNum 42)])]%string, 5).
Proof.
  split; [reflexivity|]. split; [reflexivity|].
  pose proof (enum_decoding Reference.TextDecoder_decode Reference.PublicKey_toBase58 1
                [x01; x2a; x00; x00; x00] scenarioB_idl 0 "Status" _ x01
                eq_refl eq_refl) as H.
  cbv zeta in H. destruct H as [_ H].
  specialize (H (mkVariant "Active" (Some (KindStruct [mkField "amount" TU32]))) eq_refl).
  cbn [shape_of vfields] in H.
  apply (H [VNum 42] 5).
  econstructor; [reflexivity | constructor].
Defined.


(** * Display of the raw account bytes *)

Section Base64Properties.
Variable btoa : list N -> option string.

Lemma String_fromCharCode_bytes (bs : list byte) :
  String_fromCharCode (map Byte.to_N bs) = map Byte.to_N bs.
Proof.
  unfold String_fromCharCode. rewrite map_map. apply map_ext. intros b.
  pose proof (Byte.to_N_bounded b). apply N.mod_small. lia.
Qed.

Lemma toBase64_from_all (bytes : list byte) (fuel : nat) : forall i binary,
  N.of_nat (List.length bytes) <= i + N.of_nat fuel * 0x8000 ->
  toBase64_from fuel bytes i binary
  = Ok (binary ++ map Byte.to_N (skipn (N.to_nat i) bytes)).
Proof.
  induction fuel as [|fuel IH]; intros i binary Hfuel; cbn [toBase64_from];
    destruct (N.ltb_spec i (N.of_nat (List.length bytes))) as [Hlt|Hge];
    try (rewrite skipn_all2 by lia; simpl; now rewrite app_nil_r); [lia|].
  rewrite IH by lia. rewrite String_fromCharCode_bytes, <- app_assoc, <- map_app.
  do 3 f_equal. unfold Uint8Array_slice.
  replace (i + 0x8000 - i) with 0x8000 by lia.
  replace (N.to_nat (i + 0x8000)) with (N.to_nat 0x8000 + N.to_nat i)%nat by lia.
  rewrite <- skipn_skipn. apply firstn_skipn.
Qed.

(** X15. The base64 text of the raw bytes is [btoa] applied to the
    whole buffer at once: cutting the buffer into pieces of 0x8000 bytes
    changes nothing, every code handed to [btoa] is below 256, and one
    turn of the loop per 0x8000 bytes is enough. *)
Theorem toBase64_is_btoa_of_all_bytes (fuel : nat) (bytes : list byte) :
  N.of_nat (List.length bytes) <= N.of_nat fuel * 0x8000 ->
  toBase64 btoa fuel bytes = Ok (btoa (map Byte.to_N bytes))
  /\ Forall (fun c => c < 256) (map Byte.to_N bytes).
Proof.
  intros Hfuel. split.
  - unfold toBase64. rewrite toBase64_from_all by lia. reflexivity.
  - apply Forall_forall. intros c Hc. apply in_map_iff in Hc.
    destruct Hc as [b [<- _]]. pose proof (Byte.to_N_bounded b). lia.
Qed.

End Base64Properties.

(** * Strings as lists of characters *)

Lemma string_length_list (s : string) :
  String.length s = List.length (list_ascii_of_string s).
Proof. induction s as [|c s IH]; simpl; auto. Qed.

Lemma list_ascii_app (a b : string) :
  list_ascii_of_string (a ++ b) = list_ascii_of_string a ++ list_ascii_of_string b.
Proof. induction a as [|c a IH]; simpl; [reflexivity | now rewrite IH]. Qed.

Lemma list_ascii_substring (s : string) : forall n m,
  list_ascii_of_string (String.substring n m s)
  = firstn m (skipn n (list_ascii_of_string s)).
Proof.
  induction s as [|c s IH]; intros [|n] [|m]; simpl; try reflexivity.
  - now rewrite (IH 0%nat m).
  - now rewrite IH.
  - now rewrite IH.
Qed.

Lemma list_ascii_concat_empty (l : list string) :
  list_ascii_of_string (String.concat "" l)
  = List.concat (map list_ascii_of_string l).
Proof.
  induction l as [|x [|y l] IH]; simpl in *.
  - reflexivity.
  - now rewrite app_nil_r.
  - rewrite list_ascii_app. simpl. now rewrite IH.
Qed.

Lemma list_ascii_inj (a b : string) :
  list_ascii_of_string a = list_ascii_of_string b -> a = b.
Proof.
  intros H. rewrite <- (string_of_list_ascii_of_string a),
              <- (string_of_list_ascii_of_string b). now rewrite H.
Qed.

(** * Hexadecimal text *)

Lemma to_N_byte_of_N (n : N) : Byte.to_N (byte_of_N n) = n mod 256.
Proof.
  unfold byte_of_N.
  destruct (Byte.of_N (n mod 256)) as [b|] eqn:E.
  - now apply Byte.to_of_N.
  - apply Byte.of_N_None_iff in E.
    pose proof (N.mod_upper_bound n 256). lia.
Qed.

(** The two digits [toHex] writes for a byte. *)
Lemma toHex_byte (b : byte) :
  padStart2 (Number_toString16 (Byte.to_N b))
  = String (hex_char (Byte.to_N b / 16)) (String (hex_char (Byte.to_N b mod 16)) "").
Proof. destruct b; reflexivity. Qed.

Lemma toHex_chars (bytes : list byte) :
  list_ascii_of_string (toHex bytes)
  = flat_map (fun b => [hex_char (Byte.to_N b / 16); hex_char (Byte.to_N b mod 16)]) bytes.
Proof.
  unfold toHex. rewrite list_ascii_concat_empty, map_map, flat_map_concat_map.
  f_equal. apply map_ext. intros b. now rewrite toHex_byte.
Qed.

Lemma hex_char_lower (n : N) : n < 16 -> is_lower_hex (hex_char n) = true.
Proof.
  intros H. destruct n as [|p]; [reflexivity|].
  do 4 (destruct p as [p|p|]; try reflexivity); lia.
Qed.

Lemma hex_pairs_toHex_byte (b : byte) :
  byte_of_N (parseInt16 (String (hex_char (Byte.to_N b / 16))
                                (String (hex_char (Byte.to_N b mod 16)) ""))) = b.
Proof. destruct b; reflexivity. Qed.

Lemma hex_pairs_toHex (bytes : list byte) :
  hex_pairs (list_ascii_of_string (toHex bytes)) = bytes.
Proof.
  rewrite toHex_chars.
  induction bytes as [|b bytes IH]; [reflexivity|].
  cbn [flat_map app hex_pairs]. now rewrite hex_pairs_toHex_byte, IH.
Qed.

Lemma toHex_length (bytes : list byte) :
  String.length (toHex bytes) = (2 * List.length bytes)%nat.
Proof.
  rewrite string_length_list, toHex_chars.
  induction bytes as [|b bytes IH]; simpl; [reflexivity | rewrite IH; lia].
Qed.

Lemma toHex_lower_hex (bytes : list byte) :
  forallb is_lower_hex (list_ascii_of_string (toHex bytes)) = true.
Proof.
  rewrite toHex_chars.
  induction bytes as [|b bytes IH]; [reflexivity|].
  cbn [flat_map app forallb]. rewrite IH, !hex_char_lower; [reflexivity | |].
  - apply N.mod_upper_bound. lia.
  - pose proof (Byte.to_N_bounded b). apply N.Div0.div_lt_upper_bound. lia.
Qed.

(** X16. [toHex] writes two characters per byte, all of them digits or
    lowercase letters [a] to [f], and loses nothing: the byte pairs read
    back with [parseInt(_, 16)] are the bytes, so different buffers have
    different texts. *)
Theorem toHex_is_faithful (bytes : list byte) :
  String.length (toHex bytes) = (2 * List.length bytes)%nat
  /\ forallb is_lower_hex (list_ascii_of_string (toHex bytes)) = true
  /\ hex_pairs (list_ascii_of_string (toHex bytes)) = bytes
  /\ forall other, toHex other = toHex bytes -> other = bytes.
Proof.
  split; [|split; [|split]].
  - apply toHex_length.
  - apply toHex_lower_hex.
  - apply hex_pairs_toHex.
  - intros other H. rewrite <- (hex_pairs_toHex other), H. apply hex_pairs_toHex.
Qed.




(** * Seed input *)

Lemma strip_one_None (patterns : list (list byte)) (b : byte) (rest : list byte) :
  no_pattern_starts_with patterns b = true -> strip_one patterns (b :: rest) = None.
Proof.
  induction patterns as [|p patterns IH]; simpl; [reflexivity|].
  intros H. apply andb_true_iff in H. destruct H as [Hp H].
  destruct p as [|x p]; [discriminate|]. simpl.
  apply negb_true_iff in Hp. rewrite Hp. auto.
Qed.

(** [trim] leaves a text alone whose first and last byte belong to no
    white space character. *)
Lemma String_trim_id (s : string) (b e : byte) (front back : list byte) :
  list_byte_of_string s = b :: front ->
  rev (list_byte_of_string s) = e :: back ->
  no_pattern_starts_with whitespace_utf8 b = true ->
  no_pattern_starts_with (map (@rev byte) whitespace_utf8) e = true ->
  String_trim s = s.
Proof.
  intros Hb He Hwb Hwe. unfold String_trim. cbv zeta.
  assert (F : strip_all (List.length (list_byte_of_string s)) whitespace_utf8
                (list_byte_of_string s) = list_byte_of_string s).
  { rewrite Hb. cbn [List.length strip_all]. now rewrite (strip_one_None _ _ _ Hwb). }
  rewrite F.
  assert (B : strip_all (List.length (list_byte_of_string s))
                (map (@rev byte) whitespace_utf8) (rev (list_byte_of_string s))
              = rev (list_byte_of_string s)).
  { rewrite <- length_rev, He. cbn [List.length strip_all].
    now rewrite (strip_one_None _ _ _ Hwe). }
  rewrite B, rev_involutive. apply string_of_list_byte_of_string.
Qed.

Lemma hex_digit_not_whitespace (c : ascii) :
  is_hex_digit c = true ->
  no_pattern_starts_with whitespace_utf8 (byte_of_ascii c) = true
  /\ no_pattern_starts_with (map (@rev byte) whitespace_utf8) (byte_of_ascii c) = true.
Proof.
  destruct c as [[] [] [] [] [] [] [] []]; intros H; try discriminate H;
    split; reflexivity.
Qed.

Lemma hex_char_of_value (c : ascii) :
  is_hex_digit c = true ->
  hex_digit_value c < 16 /\ hex_char (hex_digit_value c) = lower_hex c.
Proof.
  destruct c as [[] [] [] [] [] [] [] []]; intros H; try discriminate H;
    split; reflexivity.
Qed.

Lemma lower_hex_is_hex (c : ascii) : is_lower_hex c = true -> is_hex_digit c = true.
Proof. unfold is_lower_hex, is_hex_digit. intros ->. reflexivity. Qed.

Lemma hex_pair_byte (c1 c2 : ascii) :
  is_hex_digit c1 = true -> is_hex_digit c2 = true ->
  list_ascii_of_string (toHex [byte_of_N (parseInt16 (String c1 (String c2 "")))])
  = [lower_hex c1; lower_hex c2].
Proof.
  intros H1 H2.
  destruct (hex_char_of_value c1 H1) as [L1 <-].
  destruct (hex_char_of_value c2 H2) as [L2 <-].
  rewrite toHex_chars. cbn [flat_map app].
  unfold parseInt16. cbn [list_ascii_of_string fold_left].
  rewrite to_N_byte_of_N.
  replace (16 * (16 * 0 + hex_digit_value c1) + hex_digit_value c2)
    with (hex_digit_value c2 + hex_digit_value c1 * 16) by lia.
  rewrite (N.mod_small _ 256) by lia.
  rewrite N.div_add by lia. rewrite N.Div0.mod_add.
  rewrite (N.div_small (hex_digit_value c2)), (N.mod_small (hex_digit_value c2)) by lia.
  reflexivity.
Qed.

Lemma toHex_cons (b : byte) (bytes : list byte) :
  list_ascii_of_string (toHex (b :: bytes))
  = list_ascii_of_string (toHex [b]) ++ list_ascii_of_string (toHex bytes).
Proof. rewrite !toHex_chars. cbn [flat_map]. now rewrite app_nil_r. Qed.

(** Digits in pairs: the bytes read from an even number of digits. *)
Lemma hex_pairs_even (n : nat) : forall digits,
  List.length digits = (2 * n)%nat ->
  forallb is_hex_digit digits = true ->
  List.length (hex_pairs digits) = n
  /\ list_ascii_of_string (toHex (hex_pairs digits)) = map lower_hex digits.
Proof.
  induction n as [|n IH]; intros digits Hlen Hhex.
  - destruct digits; [split; reflexivity | discriminate].
  - destruct digits as [|c1 [|c2 digits]]; try (simpl in Hlen; lia).
    cbn [forallb] in Hhex. apply andb_true_iff in Hhex. destruct Hhex as [H1 Hhex].
    apply andb_true_iff in Hhex. destruct Hhex as [H2 Hhex].
    destruct (IH digits) as [Hl Ht]; [simpl in Hlen; lia | assumption|].
    cbn [hex_pairs]. split; [simpl; now rewrite Hl|].
    rewrite toHex_cons, hex_pair_byte, Ht by assumption. reflexivity.
Qed.

Section SeedProperties.
Variable bs58_decode : string -> option (list byte).

(** What [parseSeedInput] does with ["0x"] followed by digits. *)
Lemma parseSeedInput_hex (digits : list ascii) :
  digits <> [] ->
  forallb is_hex_digit digits = true ->
  parseSeedInput bs58_decode ("0x" ++ string_of_list_ascii digits)
  = if Nat.eqb (List.length digits mod 2) 0
    then inr (hex_pairs digits)
    else inl "Invalid hex seed: odd length"%string.
Proof.
  intros Hne Hhex.
  set (t := ("0x" ++ string_of_list_ascii digits)%string).
  assert (Ht : list_ascii_of_string t = "0"%char :: "x"%char :: digits).
  { unfold t. rewrite list_ascii_app, list_ascii_of_string_of_list_ascii. reflexivity. }
  assert (Htrim : String_trim t = t).
  { destruct (exists_last Hne) as [body [d Hd]].
    assert (Hdhex : is_hex_digit d = true).
    { rewrite Hd, forallb_app in Hhex. apply andb_true_iff in Hhex.
      destruct Hhex as [_ Hhex]. simpl in Hhex. now rewrite andb_true_r in Hhex. }
    assert (Hbytes : list_byte_of_string t
                     = "0"%byte :: map byte_of_ascii ("x"%char :: digits)).
    { unfold list_byte_of_string. now rewrite Ht. }
    apply (String_trim_id t "0"%byte (byte_of_ascii d)
             (map byte_of_ascii ("x"%char :: digits))
             (rev (map byte_of_ascii ("0"%char :: "x"%char :: body)))).
    - exact Hbytes.
    - unfold list_byte_of_string. rewrite Ht, Hd.
      change ("0"%char :: "x"%char :: body ++ [d])
        with (("0"%char :: "x"%char :: body) ++ [d]).
      rewrite map_app, rev_app_distr. reflexivity.
    - reflexivity.
    - apply (hex_digit_not_whitespace d Hdhex). }
  unfold parseSeedInput. rewrite Htrim.
  assert (Hmatch : matches_hex_seed t = true).
  { unfold t. destruct digits as [|c digits]; [congruence|].
    change (forallb is_hex_digit
              (list_ascii_of_string (string_of_list_ascii (c :: digits))) = true).
    now rewrite list_ascii_of_string_of_list_ascii. }
  assert (Hhexpart : String.substring 2 (String.length t - 2) t
                     = string_of_list_ascii digits).
  { apply list_ascii_inj.
    rewrite list_ascii_substring, string_length_list, Ht,
      list_ascii_of_string_of_list_ascii.
    cbn [skipn].
    replace (List.length ("0"%char :: "x"%char :: digits) - 2)%nat
      with (List.length digits) by (simpl; lia).
    apply firstn_all. }
  replace (String.eqb t "") with false by (unfold t; reflexivity).
  rewrite Hmatch, Hhexpart, string_length_list, list_ascii_of_string_of_list_ascii.
  reflexivity.
Qed.

(** X18. A seed typed as ["0x"] followed by the [toHex] text of a
    non-empty buffer is read back as that buffer, whatever base58 would
    make of the same characters. *)
Theorem hex_seed_round_trip (bytes : list byte) :
  bytes <> [] ->
  parseSeedInput bs58_decode ("0x" ++ toHex bytes) = inr bytes.
Proof.
  intros Hne.
  pose proof (toHex_length bytes) as Hlen.
  pose proof (toHex_lower_hex bytes) as Hlow.
  pose proof (hex_pairs_toHex bytes) as Hback.
  rewrite <- (string_of_list_ascii_of_string (toHex bytes)).
  rewrite parseSeedInput_hex.
  - rewrite <- string_length_list, Hlen.
    replace ((2 * List.length bytes) mod 2)%nat with 0%nat
      by (symmetry; rewrite Nat.mul_comm; apply Nat.Div0.mod_mul).
    cbn [Nat.eqb]. now rewrite Hback.
  - intros E. apply (f_equal (@List.length ascii)) in E.
    rewrite <- string_length_list, Hlen in E. destruct bytes; [congruence | discriminate].
  - apply forallb_forall. intros c Hc. apply lower_hex_is_hex.
    rewrite forallb_forall in Hlow. now apply Hlow.
Qed.

(** X19. After ["0x"], an odd number of hexadecimal digits is refused
    with the message [Invalid hex seed: odd length]; an even number, in
    either case of letters, gives one byte per two digits, and [toHex] of
    those bytes is the digits in lowercase. *)
Theorem hex_seed_digits (digits : list ascii) :
  digits <> [] ->
  forallb is_hex_digit digits = true ->
  let r := parseSeedInput bs58_decode ("0x" ++ string_of_list_ascii digits) in
  (Nat.even (List.length digits) = false ->
   r = inl "Invalid hex seed: odd length"%string)
  /\ (Nat.even (List.length digits) = true ->
      exists bytes, r = inr bytes
                    /\ (2 * List.length bytes = List.length digits)%nat
                    /\ list_ascii_of_string (toHex bytes) = map lower_hex digits).
Proof.
  intros Hne Hhex r. subst r. rewrite (parseSeedInput_hex digits Hne Hhex). split.
  - intros Hodd.
    destruct (Nat.eqb_spec (List.length digits mod 2) 0) as [E|E]; [|reflexivity].
    apply Nat.Div0.mod_divides in E. destruct E as [k E].
    rewrite E, Nat.even_mul in Hodd. discriminate.
  - intros Heven. apply Nat.even_spec in Heven. destruct Heven as [k Hk].
    replace (List.length digits mod 2)%nat with 0%nat
      by (symmetry; rewrite Hk, Nat.mul_comm; apply Nat.Div0.mod_mul).
    cbn [Nat.eqb]. exists (hex_pairs digits).
    destruct (hex_pairs_even k digits Hk Hhex) as [Hl Ht].
    split; [reflexivity|]. split; [lia | exact Ht].
Qed.

Lemma collectSeeds_from_spec (inputs : list string) : forall i seeds result,
  collectSeeds_from bs58_decode i inputs seeds = inr result ->
  exists more,
    result = seeds ++ more
    /\ Forall2 (fun raw seed => parseSeedInput bs58_decode raw = inr seed)
               (filter not_blank inputs) more
    /\ Forall (fun seed => (List.length seed <= 32)%nat) more.
Proof.
  induction inputs as [|raw inputs IH]; intros i seeds result H; simpl in H.
  - injection H as <-. exists []. rewrite app_nil_r. repeat constructor.
  - cbn [filter]. unfold not_blank at 1.
    destruct (String.eqb (String_trim raw) ""); cbn [negb]; [eauto|].
    destruct (parseSeedInput bs58_decode raw) as [message|bytes] eqn:E; [discriminate|].
    destruct (Nat.ltb_spec 32 (List.length bytes)); [discriminate|].
    destruct (IH _ _ _ H) as [more [-> [Hp Hl]]].
    exists (bytes :: more). rewrite <- app_assoc. repeat split; auto.
Qed.

(** X20. The seeds handed to the address derivation are the parsed
    non-blank inputs, in input order, and none is longer than 32 bytes:
    a longer seed stops the derivation with an error instead. *)
Theorem collected_seeds_are_bounded (inputs : list string) (seeds : list (list byte)) :
  collectSeeds bs58_decode inputs = inr seeds ->
  Forall2 (fun raw seed => parseSeedInput bs58_decode raw = inr seed)
          (filter not_blank inputs) seeds
  /\ Forall (fun seed => (List.length seed <= 32)%nat) seeds.
Proof.
  intros H. apply collectSeeds_from_spec in H.
  destruct H as [more [-> H]]. exact H.
Qed.

End SeedProperties.

(** * The further properties on examples *)

Lemma cursor_never_moves_back_witness :
  decodeType Reference.TextDecoder_decode Reference.PublicKey_toBase58 2
    [x03; x00; x00; x00; x0a; x0b; x0c] scenarioA_idl 0 (TVec TU8)
  = Ok (VArr [VNum 10; VNum 11; VNum 12], 7)
  /\ 0 <= 7.
Proof.
  split; [reflexivity|].
  exact (cursor_never_moves_back Reference.TextDecoder_decode Reference.PublicKey_toBase58
           2 [x03; x00; x00; x00; x0a; x0b; x0c] scenarioA_idl 0 (TVec TU8) _ 7 eq_refl).
Defined.

Lemma cursor_stays_inside_view_only_witness :
  view_only_idl scenarioB_idl = true
  /\ view_only (TDefined "Status") = true
  /\ 0 <= N.of_nat (List.length [x01; x2a; x00; x00; x00])
  /\ decodeType Reference.TextDecoder_decode Reference.PublicKey_toBase58 2
       [x01; x2a; x00; x00; x00] scenarioB_idl 0 (TDefined "Status")
     = Ok (VObj [("tag", VNum 1); ("name", VStr "Active");
                 ("value", VObj [("amount", VNum 42)])]%string, 5)
  /\ 5 <= N.of_nat (List.length [x01; x2a; x00; x00; x00]).
Proof.
  assert (H0 : 0 <= N.of_nat (List.length [x01; x2a; x00; x00; x00])) by (simpl; lia).
  split; [reflexivity|]. split; [reflexivity|]. split; [exact H0|].
  split; [reflexivity|].
  exact (cursor_stays_inside_view_only Reference.TextDecoder_decode
           Reference.PublicKey_toBase58 2 [x01; x2a; x00; x00; x00] scenarioB_idl 0
           (TDefined "Status") _ 5 eq_refl eq_refl H0 eq_refl).
Defined.

Lemma fixed_width_underrun_witness :
  fixed_width TU32 = Some 4
  /\ decodeType Reference.TextDecoder_decode Reference.PublicKey_toBase58 1
       [x01; x02; x03] scenarioA_idl 0 TU32 = Throw RangeError.
Proof.
  split; [reflexivity|].
  apply (proj1 (fixed_width_underrun Reference.TextDecoder_decode
                  Reference.PublicKey_toBase58 0 [x01; x02; x03] scenarioA_idl 0 TU32 4
                  eq_refl)).
  simpl. lia.
Defined.

Lemma integer_values_witness :
  int_range TI8 = Some (- 2 ^ 7, 2 ^ 7)%Z
  /\ decodeType Reference.TextDecoder_decode Reference.PublicKey_toBase58 1
       [xff] scenarioA_idl 0 TI8 = Ok (VNum (-1), 1)
  /\ decodeType Reference.TextDecoder_decode Reference.PublicKey_toBase58 1
       [xff] scenarioA_idl 0 TU8 = Ok (VNum 255, 1).
Proof.
  split; [reflexivity|]. split; [reflexivity|].
  destruct (integer_values Reference.TextDecoder_decode Reference.PublicKey_toBase58 0
              [xff] scenarioA_idl 0 TI8 _ _ (VNum (-1)) 1 eq_refl eq_refl)
    as [z [Hz [_ Hu]]].
  injection Hz as <-. exact (Hu TU8 eq_refl).
Defined.

Lemma bytes_blob_is_hex_or_underrun_witness :
  view_get [x02; x00; x00; x00; xab; xcd] 0 4 = Ok 2
  /\ decodeType Reference.TextDecoder_decode Reference.PublicKey_toBase58 2
       [x02; x00; x00; x00; xab; xcd] scenarioA_idl 0 TBytes
     = Ok (VStr "0xabcd", 6).
Proof.
  split; [reflexivity|].
  exact (bytes_blob_is_hex_or_underrun Reference.TextDecoder_decode
           Reference.PublicKey_toBase58 0 [x02; x00; x00; x00; xab; xcd]
           scenarioA_idl 0 2 eq_refl).
Defined.

Lemma vec_array_lengths_witness :
  view_get [x00; x00; x00; x00; x07] 0 4 = Ok 0
  /\ decodeType Reference.TextDecoder_decode Reference.PublicKey_toBase58 1
       [x00; x00; x00; x00; x07] scenarioA_idl 0 (TVec TString)
     = Ok (VArr [], 4).
Proof.
  split; [reflexivity|].
  exact (proj2 (proj2 (vec_array_lengths Reference.TextDecoder_decode
                         Reference.PublicKey_toBase58 0 [x00; x00; x00; x00; x07]
                         scenarioA_idl 0 TString)) eq_refl).
Defined.


Lemma auto_detect_sound_witness :
  (forall m, List.length (Reference.sha256 m) = 32%nat)
  /\ parseAccountWithIdl Reference.sha256 Reference.TextDecoder_decode
       Reference.PublicKey_toBase58 1
       [xff; xb0; x04; xf5; xbc; xfd; x7c; x19; x07; x00; x00; x00; x00; x00; x00; x00]
       scenarioA_idl
     = Ok (Some ("Counter"%string, VObj [("count"%string, VStr "7")]))
  /\ firstn 8 [xff; xb0; x04; xf5; xbc; xfd; x7c; x19;
               x07; x00; x00; x00; x00; x00; x00; x00]
     = discriminatorOf Reference.sha256 "Counter".
Proof.
  split; [exact SHA256_digest_length|].
  assert (H : parseAccountWithIdl Reference.sha256 Reference.TextDecoder_decode
                Reference.PublicKey_toBase58 1
                [xff; xb0; x04; xf5; xbc; xfd; x7c; x19;
                 x07; x00; x00; x00; x00; x00; x00; x00] scenarioA_idl
              = Ok (Some ("Counter"%string, VObj [("count"%string, VStr "7")])))
    by (vm_compute; reflexivity).
  split; [exact H|].
  exact (proj1 (proj2 (proj2 (auto_detect_sound Reference.sha256
                                Reference.TextDecoder_decode Reference.PublicKey_toBase58
                                SHA256_digest_length 1 _ _ _ _ H)))).
Defined.

Lemma explicit_agrees_with_auto_witness :
  (forall m, List.length (Reference.sha256 m) = 32%nat)
  /\ "Counter"%string <> ""%string
  /\ parseAccountWithIdl Reference.sha256 Reference.TextDecoder_decode
       Reference.PublicKey_toBase58 1
       [xff; xb0; x04; xf5; xbc; xfd; x7c; x19; x07; x00; x00; x00; x00; x00; x00; x00]
       scenarioA_idl
     = Ok (Some ("Counter"%string, VObj [("count"%string, VStr "7")]))
  /\ parseAccountAutoOrSelected Reference.sha256 Reference.TextDecoder_decode
       Reference.PublicKey_toBase58 1
       [xff; xb0; x04; xf5; xbc; xfd; x7c; x19; x07; x00; x00; x00; x00; x00; x00; x00]
       scenarioA_idl (Some "Counter"%string)
     = Ok (Some ("Counter"%string, VObj [("count"%string, VStr "7")])).
Proof.
  assert (Hn : "Counter"%string <> ""%string) by discriminate.
  assert (H : parseAccountWithIdl Reference.sha256 Reference.TextDecoder_decode
                Reference.PublicKey_toBase58 1
                [xff; xb0; x04; xf5; xbc; xfd; x7c; x19;
                 x07; x00; x00; x00; x00; x00; x00; x00] scenarioA_idl
              = Ok (Some ("Counter"%string, VObj [("count"%string, VStr "7")])))
    by (vm_compute; reflexivity).
  split; [exact SHA256_digest_length|]. split; [exact Hn|]. split; [exact H|].
  exact (explicit_agrees_with_auto Reference.sha256 Reference.TextDecoder_decode
           Reference.PublicKey_toBase58 SHA256_digest_length 1 _ _ _ _ Hn H).
Defined.

Lemma explicit_mode_sound_witness :
  (forall m, List.length (Reference.sha256 m) = 32%nat)
  /\ "Vault"%string <> ""%string
  /\ parseAccountAutoOrSelected Reference.sha256 Reference.TextDecoder_decode
       Reference.PublicKey_toBase58 1 [x07; x00; x00; x00; x00; x00; x00; x00]
       scenarioA_idl (Some "Vault"%string)
     = Ok None.
Proof.
  assert (Hn : "Vault"%string <> ""%string) by discriminate.
  split; [exact SHA256_digest_length|]. split; [exact Hn|].
  apply (proj1 (explicit_mode_sound Reference.sha256 Reference.TextDecoder_decode
                  Reference.PublicKey_toBase58 SHA256_digest_length 1
                  [x07; x00; x00; x00; x00; x00; x00; x00] scenarioA_idl "Vault" Hn)).
  intros acc [<-|[]]. discriminate.
Defined.


Lemma acyclic_schema_terminates_witness :
  let rank := fun name => if String.eqb name "Status" then 1%nat else 0%nat in
  ranked rank 1 scenarioB_idl = true
  /\ refs_below rank 2 (TVec (TDefined "Status")) = true
  /\ (depth (TVec (TDefined "Status")) + 2 * 2 <= 6)%nat
  /\ decodeType Reference.TextDecoder_decode Reference.PublicKey_toBase58 6
       [x01; x00; x00; x00; x00] scenarioB_idl 0 (TVec (TDefined "Status")) <> OutOfFuel.
Proof.
  intros rank.
  assert (Hf : (depth (TVec (TDefined "Status")) + 2 * 2 <= 6)%nat) by (simpl; lia).
  split; [reflexivity|]. split; [reflexivity|]. split; [exact Hf|].
  exact (proj1 (acyclic_schema_terminates Reference.TextDecoder_decode
                  Reference.PublicKey_toBase58 rank 1 scenarioB_idl
                  [x01; x00; x00; x00; x00] 2 (TVec (TDefined "Status")) 6 0
                  eq_refl eq_refl Hf)).
Defined.

Lemma toBase64_is_btoa_of_all_bytes_witness :
  N.of_nat (List.length [x4d; x61; x6e; xff]) <= N.of_nat 1 * 0x8000
  /\ toBase64 Codecs.btoa 1 [x4d; x61; x6e; xff] = Ok (Some "TWFu/w=="%string).
Proof.
  assert (H : N.of_nat (List.length [x4d; x61; x6e; xff]) <= N.of_nat 1 * 0x8000)
    by (simpl; lia).
  split; [exact H|].
  exact (proj1 (toBase64_is_btoa_of_all_bytes Codecs.btoa 1 [x4d; x61; x6e; xff] H)).
Defined.


Lemma hex_seed_round_trip_witness :
  [x00; xff; x1a] <> []
  /\ parseSeedInput Codecs.bs58_decode "0x00ff1a" = inr [x00; xff; x1a].
Proof.
  assert (H : [x00; xff; x1a] <> []) by discriminate.
  split; [exact H|].
  exact (hex_seed_round_trip Codecs.bs58_decode [x00; xff; x1a] H).
Defined.

Lemma hex_seed_digits_witness :
  list_ascii_of_string "ABC" <> []
  /\ forallb is_hex_digit (list_ascii_of_string "ABC") = true
  /\ Nat.even (List.length (list_ascii_of_string "ABC")) = false
  /\ parseSeedInput Codecs.bs58_decode "0xABC" = inl "Invalid hex seed: odd length"%string.
Proof.
  assert (H : list_ascii_of_string "ABC" <> []) by discriminate.
  split; [exact H|]. split; [reflexivity|]. split; [reflexivity|].
  exact (proj1 (hex_seed_digits Codecs.bs58_decode (list_ascii_of_string "ABC")
                  H eq_refl) eq_refl).
Defined.

Lemma collected_seeds_are_bounded_witness :
  collectSeeds Codecs.bs58_decode ["fair_mint"; "  "; "0x0102"; "11"]%string
  = inr [list_byte_of_string "fair_mint"; [x01; x02]; [x00; x00]]
  /\ Forall (fun seed => (List.length seed <= 32)%nat)
            [list_byte_of_string "fair_mint"; [x01; x02]; [x00; x00]].
Proof.
  assert (H : collectSeeds Codecs.bs58_decode ["fair_mint"; "  "; "0x0102"; "11"]%string
              = inr [list_byte_of_string "fair_mint"; [x01; x02]; [x00; x00]])
    by (vm_compute; reflexivity).
  split; [exact H|].
  exact (proj2 (collected_seeds_are_bounded Codecs.bs58_decode _ _ H)).
Defined.


(** A count of 1000 in front of nothing: a thousand [null]s from four
    bytes. *)
Lemma vec_of_unresolved_is_nulls_witness :
  decodeType Reference.TextDecoder_decode Reference.PublicKey_toBase58 2
    [xe8; x03; x00; x00] (mkIdl [] []) 0 (TVec (TDefined "Missing"))
  = Ok (VArr (repeat VNull 1000), 4).
Proof.
  assert (H0 : resolveDefined (mkIdl [] []) "Missing" = None) by reflexivity.
  assert (H1 : view_get [xe8; x03; x00; x00] 0 4 = Ok 1000) by reflexivity.
  exact (vec_of_unresolved_is_nulls Reference.TextDecoder_decode
           Reference.PublicKey_toBase58 0 [xe8; x03; x00; x00] (mkIdl [] []) 0
           "Missing" 1000 H0 H1).
Defined.

(** A [u16] followed by padding. *)
Lemma trailing_bytes_are_ignored_witness :
  decodeType Reference.TextDecoder_decode Reference.PublicKey_toBase58 1
    ([x34; x12] ++ [xff; xff; xff]) (mkIdl [] []) 0 TU16
  = Ok (VNum 4660, 2).
Proof.
  assert (H0 : decodeType Reference.TextDecoder_decode Reference.PublicKey_toBase58 1
                 [x34; x12] (mkIdl [] []) 0 TU16 = Ok (VNum 4660, 2)) by reflexivity.
  assert (H1 : 2 <= N.of_nat (List.length [x34; x12])) by (simpl; lia).
  exact (trailing_bytes_are_ignored Reference.TextDecoder_decode
           Reference.PublicKey_toBase58 1 [x34; x12] [xff; xff; xff] (mkIdl [] []) 0
           TU16 (VNum 4660) 2 H0 H1).
Defined.
